(** * VFilter: scopes, protocol dispatch and iteration

    A shallow embedding of the scope and of the Iterate dispatcher of
    VFilter (src/scope.go, src/protocols/protocol_iterate.go), with the
    pieces of the evaluator that the repository only exercises through
    its tests (src/vfilter_test.go) modelled from the specification. *)

From Stdlib Require Import ZArith Lia Bool.
From stdpp Require Import base list strings relations gmap.

Set Warnings "-register-all".

(** ** Values

    [Any] is Go's [interface{}] restricted to the dynamic types the code
    under study distinguishes. [Nil] is the nil interface value, [VNull]
    is vfilter's [Null{}]. A [LazyExpr] carries the value its [Reduce]
    returns, a [StoredQuery] the rows its [Eval] sends. *)

Inductive Any : Type :=
| Nil
| VNull
| VBool (b : bool)
| VInt (n : Z)
| VString (s : string)
| VDict (d : list (string * Any))
| VSlice (l : list Any)
| VLazyExpr (reduce : Any)
| VStoredQuery (rows : list Any)
| VHost (tag : nat).

(** [type Row interface{}] *)
Definition Row : Type := Any.

(** [element == nil] on an interface value. *)
Definition is_nil (a : Any) : bool :=
  match a with Nil => true | _ => false end.

(** [ordereddict.NewDict().Set(k, v)] on a new dictionary. *)
Definition NewDict_Set (k : string) (v : Any) : Any := VDict [(k, v)].

(** ** protocols/protocol_iterate.go *)

Module Iterate.

(** [context.Context]: only whether [ctx.Done()] is already closed
    matters to the code below. *)
Record Context : Type := { ctx_done : bool }.

(** [type IterateProtocol interface { Applicable; Iterate }]. The rows
    an implementation sends on its channel are a list, in order. *)
Record IterateProtocol : Type := {
  Applicable : Any -> bool;
  Iterate_of : Context -> Any -> list Row
}.

(** [type IterateDispatcher struct { impl []IterateProtocol }]. Dispatch
    only reads the list; [Copy] and [AddImpl], which share or grow its
    backing array, are modelled with the scope below. *)
Record IterateDispatcher : Type := { impl : list IterateProtocol }.

(** The [for i, impl := range self.impl] loop: the first applicable
    implementation, if any. *)
Fixpoint first_applicable (impls : list IterateProtocol) (a : Any)
  : option IterateProtocol :=
  match impls with
  | [] => None
  | i :: rest => if Applicable i a then Some i else first_applicable rest a
  end.

Section Dispatch.

(** [is_null] is a helper of the protocols package that is not part of
    the sources at hand; it is taken as a parameter. *)
Variable is_null : Any -> bool.

(** [IterateDispatcher.Iterate]. The result is the sequence of rows the
    returned channel carries until it is closed. [scope.Iterate] in the
    LazyExpr case is the scope's own dispatcher, that is this one
    (scope.go, [Scope.Iterate]); [t.Eval] of a stored query sends the
    query's rows. In the dictionary case the goroutine selects between
    [ctx.Done()] and the send: with a live context the row is sent. *)
Fixpoint Iterate (self : IterateDispatcher) (ctx : Context) (a : Any)
  : list Row :=
  match a with
  | VLazyExpr reduce => Iterate self ctx reduce
  | VStoredQuery rows => rows
  | VDict _ => if ctx_done ctx then [] else [a]
  | _ =>
      match first_applicable (impl self) a with
      | Some i => Iterate_of i ctx a
      | None => if is_null a then [] else [NewDict_Set "_value"%string a]
      end
  end.

End Dispatch.

(** The dynamic types the type switch at the head of [Iterate] takes
    before the implementation list is consulted. *)
Definition fast_path (a : Any) : bool :=
  match a with
  | VLazyExpr _ | VStoredQuery _ | VDict _ => true
  | _ => false
  end.

(** Modelled from the spec: the missing helper [is_null] ("unless a is
    Null, in which case an empty stream"): true on Null. *)
Definition is_null_spec (a : Any) : bool :=
  match a with VNull => true | _ => false end.

(** An implementation for slices only, for the examples. *)
Definition slices_only : IterateProtocol :=
  {| Applicable := fun a => match a with VSlice _ => true | _ => false end;
     Iterate_of := fun _ a => match a with VSlice l => l | _ => [] end |}.

End Iterate.

(** ** scope.go *)

Module Scopes.

(** The eleven protocols, in the order of the fields of [Scope], of the
    [Copy] calls and of the cases of the type switch of
    [AddProtocolImpl]. *)
Inductive Protocol : Type :=
| PBool | PEq | PLt | PAdd | PSub | PMul | PDiv
| PMembership | PAssociative | PRegex | PIterate.

#[global] Instance Protocol_eq_dec : EqDecision Protocol.
Proof. solve_decision. Defined.

Definition protocols : list Protocol :=
  [PBool; PEq; PLt; PAdd; PSub; PMul; PDiv;
   PMembership; PAssociative; PRegex; PIterate].

(** A Go slice header: backing array, length, capacity. The backing
    arrays live in the state; a slice of capacity 0 reaches no array. *)
Record Slice : Type := { s_ptr : nat; s_len : nat; s_cap : nat }.

(** The nil slice, also standing for the empty literal [[]T{}]. *)
Definition nil_slice : Slice := {| s_ptr := 0; s_len := 0; s_cap := 0 |}.

(** A destructor is a host closure [func()]: a label to tell closures
    apart and the seconds the call takes ([None]: it never returns). *)
Record Destructor : Type := { d_label : nat; d_seconds : option nat }.

(** [type _destructors struct { fn []func(); is_destroyed bool; ... }] *)
Record _destructors : Type := {
  fn : list Destructor;
  is_destroyed : bool
}.

(** [type Scope struct]. Each dispatcher is its implementation list
    [impl], a slice; [children] holds pointers, here indices into the
    state's scopes. The registries [functions] and [plugins], the
    loggers and [context] play no part below and are left out, as is
    the mutex: operations are taken one at a time. *)
Record Scope : Type := {
  vars : list Row;
  dispatcher : Protocol -> Slice;
  stack_depth : Z;
  children : list nat;
  destructors : _destructors
}.

(** [Scope{}] *)
Definition zero_scope : Scope :=
  {| vars := [];
     dispatcher := fun _ => nil_slice;
     stack_depth := 0;
     children := [];
     destructors := {| fn := []; is_destroyed := false |} |}.

(** The program state: every allocated [Scope], addressed by index, and
    every backing array of a dispatcher list. Unused array slots hold
    the zero value of an interface, [Nil]. *)
Record State : Type := {
  scopes : list Scope;
  arrays : list (list Any)
}.

Definition get (st : State) (self : nat) : Scope :=
  default zero_scope (scopes st !! self).

Definition set (st : State) (self : nat) (s : Scope) : State :=
  {| scopes := <[self := s]> (scopes st); arrays := arrays st |}.

(** What happened, in order: a scope was marked destroyed; a destructor
    was called synchronously; [Close] started a destructor of a scope
    and waited [waited] seconds for it before moving on. *)
Inductive Event : Type :=
| Destroyed (scope : nat)
| Called (scope : nat) (d : Destructor)
| Started (scope : nat) (d : Destructor) (waited : nat).

(** [context.WithTimeout(context.Background(), time.Second*60)] followed
    by [<-ctx.Done()]: the wait ends when the destructor returns and
    cancels, or at the deadline. *)
Definition timeout_seconds : nat := 60.

Definition wait (d : Destructor) : nat :=
  match d_seconds d with
  | Some n => Nat.min n timeout_seconds
  | None => timeout_seconds
  end.

(** How a call ends. *)
Inductive outcome : Type :=
| Returned (st : State)
| Panicked (msg : string) (st : State).

Definition state_of (o : outcome) : State :=
  match o with Returned st => st | Panicked _ st => st end.

(** [int] is 64 bits wide. *)
Definition wrap_int (z : Z) : Z :=
  ((z + 2 ^ 63) mod 2 ^ 64 - 2 ^ 63)%Z.

(** The elements a slice shows. *)
Definition slice_read (arrs : list (list Any)) (s : Slice) : list Any :=
  take (s_len s) (default [] (arrs !! s_ptr s)).

Definition upd (f : Protocol -> Slice) (p : Protocol) (s : Slice)
  : Protocol -> Slice :=
  fun q => if decide (q = p) then s else f q.

(** [func (self *Scope) AppendVars(row Row) *Scope] *)
Definition AppendVars (self : nat) (row : Row) (st : State) : State :=
  let s := get st self in
  set st self {| vars := vars s ++ [row];
                 dispatcher := dispatcher s;
                 stack_depth := stack_depth s;
                 children := children s;
                 destructors := destructors s |}.

Section Runtime.

(** The capacity the runtime picks when [append] has to reallocate, from
    the old capacity and the length needed. It is never below the
    length needed. *)
Variable growcap : nat -> nat -> nat.

(** [append(s, xs...)]: in place when the capacity allows, otherwise
    into a new array. *)
Definition slice_append (arrs : list (list Any)) (s : Slice) (xs : list Any)
  : list (list Any) * Slice :=
  let n := s_len s + length xs in
  if n <=? s_cap s then
    let arr := default [] (arrs !! s_ptr s) in
    (<[s_ptr s := take (s_len s) arr ++ xs ++ drop n arr]> arrs,
     {| s_ptr := s_ptr s; s_len := n; s_cap := s_cap s |})
  else
    let c := Nat.max n (growcap (s_cap s) n) in
    (arrs ++ [slice_read arrs s ++ xs ++ replicate (c - n) Nil],
     {| s_ptr := length arrs; s_len := n; s_cap := c |}).

(** [Dispatcher.Copy], as [IterateDispatcher.Copy] has it:
    [append([]T{}, self.impl...)]. The other ten dispatcher types are
    not among the sources; following the spec ("Copy() duplicates each
    dispatcher's list") they copy the same way. *)
Definition dispatcher_Copy (arrs : list (list Any)) (s : Slice)
  : list (list Any) * Slice :=
  slice_append arrs nil_slice (slice_read arrs s).

(** [Dispatcher.AddImpl(elements...)], as [IterateDispatcher.AddImpl]
    has it: one [append] per element. *)
Fixpoint dispatcher_AddImpl (arrs : list (list Any)) (s : Slice)
  (elements : list Any) : list (list Any) * Slice :=
  match elements with
  | [] => (arrs, s)
  | i :: rest =>
      let '(arrs', s') := slice_append arrs s [i] in
      dispatcher_AddImpl arrs' s' rest
  end.

(** The eleven [self.x.Copy()] of a composite literal, in field order. *)
Fixpoint copy_dispatchers (ps : list Protocol) (src : Protocol -> Slice)
  (arrs : list (list Any)) (acc : Protocol -> Slice)
  : list (list Any) * (Protocol -> Slice) :=
  match ps with
  | [] => (arrs, acc)
  | p :: rest =>
      let '(arrs', s') := dispatcher_Copy arrs (src p) in
      copy_dispatchers rest src arrs' (upd acc p s')
  end.

(** [func (self *Scope) NewScope() *Scope] *)
Definition NewScope (self : nat) (st : State) : State * nat :=
  let s := get st self in
  let '(arrs, disp) :=
    copy_dispatchers protocols (dispatcher s) (arrays st) (fun _ => nil_slice) in
  let result :=
    {| vars := [NewDict_Set "NULL"%string VNull];
       dispatcher := disp;
       stack_depth := 0;
       children := [];
       destructors := {| fn := []; is_destroyed := false |} |} in
  ({| scopes := scopes st ++ [result]; arrays := arrs |}, length (scopes st)).

(** [func (self *Scope) Copy() *Scope] *)
Definition Copy (self : nat) (st : State) : State * nat :=
  let s := get st self in
  let '(arrs, disp) :=
    copy_dispatchers protocols (dispatcher s) (arrays st) (fun _ => nil_slice) in
  let child_scope :=
    {| vars := [] ++ vars s;
       dispatcher := disp;
       stack_depth := wrap_int (stack_depth s + 1);
       children := [];
       destructors := {| fn := []; is_destroyed := false |} |} in
  let child := length (scopes st) in
  let s' :=
    {| vars := vars s;
       dispatcher := dispatcher s;
       stack_depth := stack_depth s;
       children := children s ++ [child];
       destructors := destructors s |} in
  ({| scopes := <[self := s']> (scopes st) ++ [child_scope]; arrays := arrs |},
   child).

(** Which of the protocol interfaces the dynamic type of a value
    satisfies: a fact of the host's method sets. *)
Variable implements : Any -> Protocol -> bool.

(** The type switch: the first case, in source order, whose interface
    the value satisfies. *)
Definition route (imp : Any) : option Protocol :=
  List.find (implements imp) protocols.

(** Whether the type switch sends a value to the dispatcher of [q]. *)
Definition routed_to (q : Protocol) (imp : Any) : bool :=
  match route imp with
  | Some p => bool_decide (p = q)
  | None => false
  end.

(** [self.x.AddImpl(t)] on the dispatcher of protocol [p]. *)
Definition AddImpl (self : nat) (p : Protocol) (t : Any) (st : State) : State :=
  let s := get st self in
  let '(arrs, sl) := dispatcher_AddImpl (arrays st) (dispatcher s p) [t] in
  {| scopes :=
       <[self := {| vars := vars s;
                    dispatcher := upd (dispatcher s) p sl;
                    stack_depth := stack_depth s;
                    children := children s;
                    destructors := destructors s |}]> (scopes st);
     arrays := arrs |}.

(** [func (self *Scope) AddProtocolImpl(implementations ...Any) *Scope].
    [Debug(t)] only prints. *)
Fixpoint AddProtocolImpl (self : nat) (implementations : list Any) (st : State)
  : outcome :=
  match implementations with
  | [] => Returned st
  | imp :: rest =>
      match route imp with
      | Some p => AddProtocolImpl self rest (AddImpl self p imp st)
      | None => Panicked "Unsupported interface"%string st
      end
  end.

(** Several calls of [AddProtocolImpl] on one scope, one after the
    other, whether they return or panic. *)
Definition AddProtocolImpl_calls (self : nat) (calls : list (list Any))
  (st : State) : State :=
  fold_left (fun st imps => state_of (AddProtocolImpl self imps st)) calls st.

(** [func NewScope() *Scope], the factory of the root scope: a zero
    [Scope], the frame with NULL, then the built-in protocol
    implementations. The built-in implementations are not among the
    sources and are an argument; the function and plugin registries are
    left out. *)
Definition vfilter_NewScope (builtins : list Any) (st : State) : outcome * nat :=
  let self := length (scopes st) in
  let st1 := {| scopes := scopes st ++ [zero_scope]; arrays := arrays st |} in
  (AddProtocolImpl self builtins
     (AppendVars self (NewDict_Set "NULL"%string VNull) st1),
   self).

End Runtime.

(** [func (self *Scope) AddDestructor(fn func())] *)
Definition AddDestructor (self : nat) (d : Destructor) (st : State)
  : State * list Event :=
  let s := get st self in
  if is_destroyed (destructors s) then (st, [Called self d])
  else
    (set st self {| vars := vars s;
                    dispatcher := dispatcher s;
                    stack_depth := stack_depth s;
                    children := children s;
                    destructors :=
                      {| fn := fn (destructors s) ++ [d];
                         is_destroyed := false |} |},
     []).

(** The loop [for _, child := range self.children { child.Close() }],
    given what closing one scope does. *)
Fixpoint close_all (close : nat -> State -> option (State * list Event))
  (cs : list nat) (st : State) : option (State * list Event) :=
  match cs with
  | [] => Some (st, [])
  | child :: rest =>
      match close child st with
      | None => None
      | Some (st1, tr1) =>
          match close_all close rest st1 with
          | None => None
          | Some (st2, tr2) => Some (st2, tr1 ++ tr2)
          end
      end
  end.

(** The destructor loop of [Close]: [for i := len(ds) - 1; i >= 0; i--]. *)
Definition run_destructors (self : nat) (ds : list Destructor) : list Event :=
  map (fun d => Started self d (wait d)) (rev ds).

(** [func (self *Scope) Close()]. The recursion follows the pointers in
    [children]; [fuel] bounds its depth and [None] is a call that has
    not returned within it. *)
Fixpoint Close (fuel : nat) (self : nat) (st : State)
  : option (State * list Event) :=
  match fuel with
  | O => None
  | S fuel' =>
      match close_all (Close fuel') (children (get st self)) st with
      | None => None
      | Some (st1, tr1) =>
          let s := get st1 self in
          let ds := [] ++ fn (destructors s) in
          let st2 :=
            set st1 self {| vars := vars s;
                            dispatcher := dispatcher s;
                            stack_depth := stack_depth s;
                            children := children s;
                            destructors := {| fn := []; is_destroyed := true |} |} in
          Some (st2, tr1 ++ Destroyed self :: run_destructors self ds)
      end
  end.

Section Lookup.

(** [self.Associative(subscope, field)]: what the scope's Associative
    dispatcher answers for a frame and a field name. The dispatcher and
    its implementations are not among the sources. *)
Variable Associative : Row -> string -> Any * bool.

(** The loop of [Resolve], over the frames from the newest to the
    oldest, with the default found so far. *)
Fixpoint resolve_loop (frames : list Row) (field : string) (default_value : Any)
  : Any * bool :=
  match frames with
  | [] => (default_value, negb (is_nil default_value))
  | subscope :: older =>
      let '(element, pres) := Associative subscope field in
      if pres then
        ((if is_nil element then VNull else element), true)
      else if negb (is_nil element) && is_nil default_value then
        resolve_loop older field element
      else
        resolve_loop older field default_value
  end.

(** [func (self *Scope) Resolve(field string) (interface{}, bool)]:
    [for i := len(self.vars) - 1; i >= 0; i--]. *)
Definition Resolve (s : Scope) (field : string) : Any * bool :=
  resolve_loop (rev (vars s)) field Nil.

(** The defaults the frames offer for a field: the non-nil values that
    come with [pres = false]. *)
Definition defaults (frames : list Row) (field : string) : list Any :=
  List.filter (fun e => negb (is_nil e))
         (map (fun r => fst (Associative r field)) frames).

End Lookup.

(** For the examples: a runtime that doubles capacities, and host
    values [VHost n] whose type satisfies the [n]-th protocol interface
    only, except [VHost 11], which satisfies both Bool and Iterate, and
    the values from [VHost 12] on, which satisfy none. *)
Definition sample_growcap (old needed : nat) : nat := 2 * old.

Definition sample_implements (imp : Any) (p : Protocol) : bool :=
  match imp with
  | VHost 11 => bool_decide (p = PBool) || bool_decide (p = PIterate)
  | VHost n => bool_decide (protocols !! n = Some p)
  | _ => false
  end.

(** The state before any scope is allocated. *)
Definition no_scope : State := {| scopes := []; arrays := [] |}.

(** A root scope made by the factory, without built-in implementations,
    for the examples. *)
Definition one_scope : State :=
  state_of (fst (vfilter_NewScope sample_growcap sample_implements [] no_scope)).

(** A scope with four implementations registered, for the examples. *)
Definition sample_parent : State :=
  state_of (AddProtocolImpl sample_growcap sample_implements 0
              [VHost 0; VHost 10; VHost 11; VHost 0] one_scope).

(** A parent with a destructor that returns after five seconds, and
    its copy with a destructor that never returns, for the examples. *)
Definition quick : Destructor := {| d_label := 1; d_seconds := Some 5 |}.
Definition stuck : Destructor := {| d_label := 2; d_seconds := None |}.

Definition sample_family : State :=
  let '(st1, child) := Copy sample_growcap 0 one_scope in
  fst (AddDestructor child stuck (fst (AddDestructor 0 quick st1))).

(** The same, the second scope made by [NewScope] instead. *)
Definition sample_siblings : State :=
  let '(st1, other) := NewScope sample_growcap 0 one_scope in
  fst (AddDestructor other stuck (fst (AddDestructor 0 quick st1))).

(** An Associative for the examples: a host row [VHost (S n)] has no
    field but offers the default [n]; [VHost 0] offers none. *)
Definition host_Associative (a : Row) (field : string) : Any * bool :=
  match a with
  | VHost (S n) => (VInt (Z.of_nat n), false)
  | _ => (Nil, false)
  end.

(** Modelled from the spec: field access on an ordered dictionary, one
    of the Associative implementations that are not among the sources.
    A key that is set is present with its value; any other lookup
    answers nil and false. *)
Fixpoint dict_get (d : list (string * Any)) (k : string) : Any * bool :=
  match d with
  | [] => (Nil, false)
  | (k', v) :: rest => if String.eqb k k' then (v, true) else dict_get rest k
  end.

Definition dict_Associative (a : Row) (field : string) : Any * bool :=
  match a with
  | VDict d => dict_get d field
  | _ => (Nil, false)
  end.

End Scopes.

(** ** LET bindings

    Modelled from the spec: the evaluator (LET, stored queries and their
    evaluation) is not among the sources; only the test
    [TestMaterializedStoredQuery] and its [CounterFunction] are. "[LET x
    = SELECT ...] binds x to a StoredQuery (lazy: a fresh Eval runs on
    each reference). [LET x <= SELECT ...] binds x to a Sequence obtained
    by draining the StoredQuery exactly once at the point of LET." *)

Module Let.

(** The host state a query can touch: how many times the side-effecting
    function has been invoked. *)
Abbreviation Host := nat.

(** Computations that read and change the host state. *)
Definition M (A : Type) : Type := Host -> A * Host.

Definition ret {A : Type} (a : A) : M A := fun h => (a, h).

Definition bind {A B : Type} (m : M A) (k : A -> M B) : M B :=
  fun h => let '(a, h') := m h in k a h'.

Notation "'let*' x := m 'in' k" := (bind m (fun x => k))
  (at level 10, x name, m at level 100, k at level 200).

(** [CounterFunction.Call] of src/vfilter_test.go:
    [CounterFunctionCount += 1; return CounterFunctionCount]. *)
Definition counter : M Any :=
  fun h => (VInt (Scopes.wrap_int (Z.of_nat (S h))), S h).

(** Modelled from the spec: a stored query, whose "Eval produces a fresh
    stream each call"; the evaluator is not among the sources. *)
Record StoredQuery : Type := { Eval : M (list Row) }.

(** Modelled from the spec: the evaluation of [SELECT f() FROM
    plugin()], missing from the sources: one output row per row of the
    source, the column reduced, hence the function invoked, once for each. *)
Fixpoint select_call (f : M Any) (source : list Row) : M (list Row) :=
  match source with
  | [] => ret []
  | _ :: rest =>
      let* v := f in
      let* rows := select_call f rest in
      ret (NewDict_Set "f()"%string v :: rows)
  end.

(** [SELECT counter() FROM scope()]: the scope plugin emits one row. *)
Definition counter_query (scope_row : Row) : StoredQuery :=
  {| Eval := select_call counter [scope_row] |}.

(** What a name is bound to: a stored query, or a materialized sequence. *)
Inductive Binding : Type :=
| BStoredQuery (q : StoredQuery)
| BSequence (rows : list Row).

Definition Env : Type := list (string * Binding).

Fixpoint lookup_var (x : string) (env : Env) : option Binding :=
  match env with
  | [] => None
  | (y, b) :: rest => if String.eqb x y then Some b else lookup_var x rest
  end.

(** Modelled from the spec: the LET statement, missing from the
    sources: [LET x = q] binds the stored query, and [LET x <= q], with
    [materialize], the sequence obtained by draining it once. *)
Definition LET (materialize : bool) (x : string) (q : StoredQuery) (env : Env)
  : M Env :=
  if materialize then
    let* rows := Eval q in
    ret ((x, BSequence rows) :: env)
  else
    ret ((x, BStoredQuery q) :: env).

(** Modelled from the spec: [SELECT * FROM x], a reference to [x],
    missing from the sources: a fresh Eval of a stored query, the rows
    of a materialized one; an unknown name yields no row. *)
Definition reference (x : string) (env : Env) : M (list Row) :=
  match lookup_var x env with
  | Some (BStoredQuery q) => Eval q
  | Some (BSequence rows) => ret rows
  | None => ret []
  end.

(** [n] references in a row, and the rows each of them yields. *)
Fixpoint references (n : nat) (x : string) (env : Env) : M (list (list Row)) :=
  match n with
  | O => ret []
  | S n' =>
      let* rows := reference x env in
      let* more := references n' x env in
      ret (rows :: more)
  end.

(** Reading [CounterFunctionCount]. *)
Definition count : M nat := fun h => (h, h).

(** [TestMaterializedStoredQuery] of src/vfilter_test.go: the queries it
    runs, in order, and the value of the counter at each of its six
    assertions. *)
Definition TestMaterializedStoredQuery (scope_row : Row) : M (list nat) :=
  let q := counter_query scope_row in
  let* c0 := count in
  let* _ := Eval q in
  let* c1 := count in
  let* env := LET false "stored" q [] in
  let* c2 := count in
  let* _ := reference "stored" env in
  let* c3 := count in
  let* env := LET true "materialized" q env in
  let* c4 := count in
  let* _ := reference "materialized" env in
  let* c5 := count in
  ret [c0; c1; c2; c3; c4; c5].

(** The invocations a computation adds, from a given host state. *)
Definition invocations {A : Type} (m : M A) (h : Host) : nat := snd (m h) - h.

End Let.

(** ** The Eq protocol on Null and the expression tests

    Modelled from the spec: the Eq dispatcher is not among the sources.
    "[Null == Null] is true; [Null == x] is false for every other x
    (including host zero values)." What the implementations answer on
    two operands that are not Null is a parameter. *)

Module Tests.

Definition is_Null (a : Any) : bool :=
  match a with VNull => true | _ => false end.

(** Modelled from the spec: the Eq dispatcher, missing from the sources,
    as far as Null goes: Null is equal to Null and to nothing else. *)
Definition Eq (eq_impls : Any -> Any -> bool) (a b : Any) : bool :=
  if is_Null a || is_Null b then is_Null a && is_Null b else eq_impls a b.

(** [type execTest struct { clause string; result Any }] *)
Record execTest : Type := { clause : string; result : Any }.

(** The entries of [execTestsSerialization] on silently trapped
    arithmetic (src/vfilter_test.go, lines 48 to 53). *)
Definition division_by_zero : execTest :=
  {| clause := "10 / 0"; result := VBool false |}.

Definition add_incompatible : execTest :=
  {| clause := "1 + 'foo'"; result := VNull |}.

Definition sub_incompatible : execTest :=
  {| clause := "'foo' - 'bar'"; result := VNull |}.

Definition trapped_arithmetic : list execTest :=
  [division_by_zero; add_incompatible; sub_incompatible].

(** The loop of [TestEvalWhereClause]: each clause is parsed and reduced
    against the test scope, here [Reduce], and the test fails unless
    [scope.Eq(value, test.result)]. *)
Definition TestEvalWhereClause (eq_impls : Any -> Any -> bool)
  (Reduce : string -> Any) (tests : list execTest) : bool :=
  forallb (fun test => Eq eq_impls (Reduce (clause test)) (result test)) tests.

(** For the examples: implementations of Eq that compare two Booleans
    or two Integers, and a reduction that passes the three tests. *)
Definition sample_eq_impls (a b : Any) : bool :=
  match a, b with
  | VBool x, VBool y => Bool.eqb x y
  | VInt x, VInt y => Z.eqb x y
  | _, _ => false
  end.

Definition sample_Reduce (clause : string) : Any :=
  if String.eqb clause "10 / 0" then VBool false else VNull.

End Tests.

(** ** Well-formed states *)

Module Invariants.
Import Scopes.

(** A slice is within its array. *)
Definition valid (arrs : list (list Any)) (s : Slice) : Prop :=
  s_len s <= s_cap s /\
  (s_cap s = 0 \/
   exists arr, arrs !! s_ptr s = Some arr /\ s_cap s <= length arr).

(** Two slices share no array. *)
Definition sep (s t : Slice) : Prop :=
  s_cap s = 0 \/ s_cap t = 0 \/ s_ptr s <> s_ptr t.

(** Every dispatcher list is within its array, and no two lists share
    an array. *)
Definition slices_ok (st : State) : Prop :=
  (forall id p, valid (arrays st) (dispatcher (get st id) p)) /\
  (forall id1 id2 p1 p2,
      id1 <> id2 \/ p1 <> p2 ->
      sep (dispatcher (get st id1) p1) (dispatcher (get st id2) p2)).

(** Children are allocated after their parent. *)
Definition tree_ok (st : State) : Prop :=
  forall id c, c ∈ children (get st id) -> id < c < length (scopes st).

(** Two scope values that differ at most in their dispatchers. *)
Definition untouched (s s' : Scope) : Prop :=
  vars s' = vars s /\ stack_depth s' = stack_depth s /\
  children s' = children s /\ destructors s' = destructors s.

(** The scope an event is about. *)
Definition event_scope (e : Event) : nat :=
  match e with
  | Destroyed scope => scope
  | Called scope _ => scope
  | Started scope _ _ => scope
  end.

(** Between [st] and [st'], with events [tr], scope [id] was closed: it
    is marked destroyed, its list of destructors is empty, and every
    destructor it had in [st] was started. *)
Definition closed_in (st st' : State) (tr : list Event) (id : nat) : Prop :=
  is_destroyed (destructors (get st' id)) = true
  /\ fn (destructors (get st' id)) = []
  /\ Destroyed id ∈ tr
  /\ forall d, d ∈ fn (destructors (get st id)) -> Started id d (wait d) ∈ tr.

(** What closing may change: nothing but destructors, and those only by
    closing their scope. *)
Definition closing (st st' : State) (tr : list Event) : Prop :=
  length (scopes st') = length (scopes st)
  /\ arrays st' = arrays st
  /\ (forall id, vars (get st' id) = vars (get st id)
                 /\ dispatcher (get st' id) = dispatcher (get st id)
                 /\ stack_depth (get st' id) = stack_depth (get st id)
                 /\ children (get st' id) = children (get st id))
  /\ (forall id, destructors (get st' id) = destructors (get st id)
                 \/ closed_in st st' tr id).

(** A well-formed state. *)
Definition wf (st : State) : Prop := tree_ok st /\ slices_ok st.

(** One call of the scope's interface on an allocated scope, or of the
    factory. *)
Inductive step (growcap : nat -> nat -> nat)
    (implements : Any -> Protocol -> bool) : State -> State -> Prop :=
| step_factory st builtins :
    step growcap implements st
      (state_of (fst (vfilter_NewScope growcap implements builtins st)))
| step_NewScope st self :
    self < length (scopes st) ->
    step growcap implements st (fst (NewScope growcap self st))
| step_Copy st self :
    self < length (scopes st) ->
    step growcap implements st (fst (Copy growcap self st))
| step_AddProtocolImpl st self imps :
    self < length (scopes st) ->
    step growcap implements st
      (state_of (AddProtocolImpl growcap implements self imps st))
| step_AppendVars st self row :
    self < length (scopes st) ->
    step growcap implements st (AppendVars self row st)
| step_AddDestructor st self d :
    self < length (scopes st) ->
    step growcap implements st (fst (AddDestructor self d st))
| step_Close st self fuel st' tr :
    self < length (scopes st) ->
    Close fuel self st = Some (st', tr) ->
    step growcap implements st st'.

(** The implementation list of a protocol of a scope. *)
Definition impls (st : State) (id : nat) (p : Protocol) : list Any :=
  slice_read (arrays st) (dispatcher (get st id) p).

End Invariants.

(** ** scope.go, further methods of the scope *)

Module ScopeOps.
Import Scopes.

(** [func (self *Scope) incDepth()]: [self.stack_depth++]. *)
Definition incDepth (self : nat) (st : State) : State :=
  let s := get st self in
  set st self {| vars := vars s;
                 dispatcher := dispatcher s;
                 stack_depth := wrap_int (stack_depth s + 1);
                 children := children s;
                 destructors := destructors s |}.

(** [func (self *Scope) decDepth()]: [self.stack_depth--]. *)
Definition decDepth (self : nat) (st : State) : State :=
  let s := get st self in
  set st self {| vars := vars s;
                 dispatcher := dispatcher s;
                 stack_depth := wrap_int (stack_depth s - 1);
                 children := children s;
                 destructors := destructors s |}.

(** [func (self *Scope) getDepth() int] *)
Definition getDepth (self : nat) (st : State) : Z := stack_depth (get st self).

(** The values of an [int]. *)
Definition is_int (z : Z) : Prop := (- 2 ^ 63 <= z < 2 ^ 63)%Z.

Section Members.

(** [self.GetMembers(vars)]: the member names the scope's Associative
    dispatcher lists for a frame. The dispatcher is not among the
    sources. *)
Variable GetMembers : Row -> list string.

(** [InString(&result, k)], a helper that is not among the sources. *)
Variable InString : list string -> string -> bool.

(** The inner loop of [Keys], over the members of one frame. *)
Definition add_keys (result : list string) (members : list string)
  : list string :=
  fold_left (fun result k => if InString result k then result else result ++ [k])
            members result.

(** [func (self *Scope) Keys() []string] *)
Definition Keys (s : Scope) : list string :=
  fold_left (fun result frame => add_keys result (GetMembers frame)) (vars s) [].

End Members.

(** The closed scopes: marked destroyed, without destructors, and with
    closed children only. *)
Inductive closed_tree (st : State) : nat -> Prop :=
| closed_node (id : nat) :
    destructors (get st id) = {| fn := []; is_destroyed := true |} ->
    (forall c, c ∈ children (get st id) -> closed_tree st c) ->
    closed_tree st id.

(** Events that start or call no destructor. *)
Definition is_Destroyed (e : Event) : Prop :=
  match e with Destroyed _ => True | _ => False end.

(** The operands the methods of [_ScopeAssociative] tell apart by their
    dynamic type: a [*Scope], a [Scope], anything else. *)
Inductive Operand : Type :=
| OScopePtr (id : nat)
| OScope (s : Scope)
| OAny (a : Any).

Section ScopeAssociative.

(** [to_string], a helper that is not among the sources: the string an
    operand converts to, if any. *)
Variable to_string : Operand -> option string.

(** [a_scope.GetMembers(vars)], through the Associative dispatcher of
    [a_scope], which is not among the sources. *)
Variable GetMembers_of : Scope -> Row -> list string.

(** The order in which [for k, _ := range seen] visits the keys of a
    map, given the keys in the order of their insertion. *)
Variable range_keys : list string -> list string.

(** [self.Associative(subscope, field)] of the scope that is resolved in. *)
Variable Associative : Row -> string -> Any * bool.

(** [func (self _ScopeAssociative) Applicable(a Any, b Any) bool] *)
Definition ScopeAssociative_Applicable (a b : Operand) : bool :=
  let a_ok := match a with OScopePtr _ => true | _ => false end in
  let b_ok := match to_string b with Some _ => true | None => false end in
  a_ok && b_ok.

(** [func (self _ScopeAssociative) GetMembers(scope *Scope, a Any)
    []string]: the type assertion is [a.(Scope)]. *)
Definition ScopeAssociative_GetMembers (st : State) (scope : nat) (a : Operand)
  : list string :=
  match a with
  | OScope a_scope =>
      range_keys (concat (map (GetMembers_of a_scope) (vars (get st scope))))
  | _ => []
  end.

(** [func (self _ScopeAssociative) Associative(scope *Scope, a Any, b
    Any) (Any, bool)] *)
Definition ScopeAssociative_Associative (st : State) (a b : Operand)
  : Any * bool :=
  match to_string b with
  | None => (Nil, false)
  | Some b_str =>
      match a with
      | OScopePtr a_scope => Resolve Associative (get st a_scope) b_str
      | _ => (Nil, false)
      end
  end.

End ScopeAssociative.

(** For the examples: strings convert to themselves. *)
Definition sample_to_string (b : Operand) : option string :=
  match b with OAny (VString s) => Some s | _ => None end.

End ScopeOps.

(** ** LazyExpr placeholders *)

Module Lazy.

(** The value a chain of LazyExpr placeholders stands for. *)
Fixpoint unwrap (a : Any) : Any :=
  match a with
  | VLazyExpr reduce => unwrap reduce
  | _ => a
  end.

End Lazy.

(** ** scope.go, the objects scopes share: registries and context

    The fields [functions], [plugins] and [context] of a scope are
    references: Go maps and a pointer to an ordered dictionary. They are
    kept beside the state of the scopes, one triple of references for
    each scope, in the order of allocation. *)

Module World.
Import Scopes.

(** A [FunctionInterface] value: the name its [Info] reports, and a tag
    to tell values apart. *)
Record FunctionInterface : Type := { function_name : string; function_tag : nat }.

(** A [PluginGeneratorInterface] value, likewise. *)
Record PluginGeneratorInterface : Type := { plugin_name : string; plugin_tag : nat }.

(** The contents of an [*ordereddict.Dict]. *)
Definition Dict : Type := list (string * Any).

(** Modelled from the spec: [Set] of the ordered dictionary, a library
    that is not part of the repository ("Keys unique; insertion order
    preserved"): the value of a key that is set is replaced where it
    stands, a new key is added at the end. *)
Fixpoint dict_set (d : Dict) (k : string) (v : Any) : Dict :=
  match d with
  | [] => [(k, v)]
  | (k', v') :: rest =>
      if String.eqb k k' then (k, v) :: rest else (k', v') :: dict_set rest k v
  end.

(** The references a scope holds. *)
Record Pointers : Type := { functions : nat; plugins : nat; context : nat }.

Record World : Type := {
  state : State;
  pointers : list Pointers;
  function_maps : list (gmap string FunctionInterface);
  plugin_maps : list (gmap string PluginGeneratorInterface);
  dicts : list Dict
}.

Definition pointers_of (w : World) (self : nat) : Pointers :=
  default {| functions := 0; plugins := 0; context := 0 |} (pointers w !! self).

(** [self.functions], [self.plugins], [self.context]. *)
Definition functions_of (w : World) (self : nat) : gmap string FunctionInterface :=
  default ∅ (function_maps w !! functions (pointers_of w self)).

Definition plugins_of (w : World) (self : nat)
  : gmap string PluginGeneratorInterface :=
  default ∅ (plugin_maps w !! plugins (pointers_of w self)).

Definition context_of (w : World) (self : nat) : Dict :=
  default [] (dicts w !! context (pointers_of w self)).

(** [func (self *Scope) GetContext(name string) Any] *)
Definition GetContext (self : nat) (name : string) (w : World) : Any :=
  let '(res, pres) := dict_get (context_of w self) name in
  if pres then res else Nil.

(** [func (self *Scope) SetContext(name string, value Any)] *)
Definition SetContext (self : nat) (name : string) (value : Any) (w : World)
  : World :=
  {| state := state w;
     pointers := pointers w;
     function_maps := function_maps w;
     plugin_maps := plugin_maps w;
     dicts := alter (fun d => dict_set d name value)
                    (context (pointers_of w self)) (dicts w) |}.

(** [func (self *Scope) ClearContext()]: a new dictionary, and one more
    frame with NULL. *)
Definition ClearContext (self : nat) (w : World) : World :=
  let p := pointers_of w self in
  {| state := AppendVars self (NewDict_Set "NULL" VNull) (state w);
     pointers := <[self := {| functions := functions p;
                              plugins := plugins p;
                              context := length (dicts w) |}]> (pointers w);
     function_maps := function_maps w;
     plugin_maps := plugin_maps w;
     dicts := dicts w ++ [[]] |}.

(** The loop of [AppendFunctions]: [result.functions[info.Name] = function]. *)
Definition add_functions (fs : list FunctionInterface)
  (m : gmap string FunctionInterface) : gmap string FunctionInterface :=
  fold_left (fun m f => <[function_name f := f]> m) fs m.

(** [func (self *Scope) AppendFunctions(functions ...FunctionInterface) *Scope] *)
Definition AppendFunctions (self : nat) (fs : list FunctionInterface) (w : World)
  : World :=
  {| state := state w;
     pointers := pointers w;
     function_maps := alter (add_functions fs)
                            (functions (pointers_of w self)) (function_maps w);
     plugin_maps := plugin_maps w;
     dicts := dicts w |}.

(** The loop of [AppendPlugins]: [result.plugins[info.Name] = plugin]. *)
Definition add_plugins (ps : list PluginGeneratorInterface)
  (m : gmap string PluginGeneratorInterface)
  : gmap string PluginGeneratorInterface :=
  fold_left (fun m p => <[plugin_name p := p]> m) ps m.

(** [func (self *Scope) AppendPlugins(plugins ...PluginGeneratorInterface) *Scope] *)
Definition AppendPlugins (self : nat) (ps : list PluginGeneratorInterface)
  (w : World) : World :=
  {| state := state w;
     pointers := pointers w;
     function_maps := function_maps w;
     plugin_maps := alter (add_plugins ps)
                          (plugins (pointers_of w self)) (plugin_maps w);
     dicts := dicts w |}.

(** [func (self *Scope) Info(type_map *TypeMap, name string)]: the
    plugin whose [Info] is returned, if the name is registered. *)
Definition Info (self : nat) (name : string) (w : World)
  : option PluginGeneratorInterface :=
  plugins_of w self !! name.

Section Runtime.

Variable growcap : nat -> nat -> nat.
Variable implements : Any -> Protocol -> bool.

(** [func (self *Scope) NewScope() *Scope] with its references: the
    registries of [self], a new context. *)
Definition NewScope (self : nat) (w : World) : World * nat :=
  let p := pointers_of w self in
  let '(st, result) := Scopes.NewScope growcap self (state w) in
  ({| state := st;
      pointers := pointers w ++ [{| functions := functions p;
                                    plugins := plugins p;
                                    context := length (dicts w) |}];
      function_maps := function_maps w;
      plugin_maps := plugin_maps w;
      dicts := dicts w ++ [[]] |},
   result).

(** [func (self *Scope) Copy() *Scope] with its references: the
    registries and the context of [self]. *)
Definition Copy (self : nat) (w : World) : World * nat :=
  let p := pointers_of w self in
  let '(st, child_scope) := Scopes.Copy growcap self (state w) in
  ({| state := st;
      pointers := pointers w ++ [p];
      function_maps := function_maps w;
      plugin_maps := plugin_maps w;
      dicts := dicts w |},
   child_scope).

(** [func NewScope() *Scope], the factory, with its references: new
    registries and a new context, then the built-in implementations,
    functions and plugins, none of which is among the sources. When
    [AddProtocolImpl] panics the registries stay empty. *)
Definition vfilter_NewScope (builtins : list Any) (fs : list FunctionInterface)
  (ps : list PluginGeneratorInterface) (w : World) : World * nat :=
  let '(o, self) := Scopes.vfilter_NewScope growcap implements builtins (state w) in
  let w1 :=
    {| state := state_of o;
       pointers := pointers w ++ [{| functions := length (function_maps w);
                                     plugins := length (plugin_maps w);
                                     context := length (dicts w) |}];
       function_maps := function_maps w ++ [∅];
       plugin_maps := plugin_maps w ++ [∅];
       dicts := dicts w ++ [[]] |} in
  match o with
  | Returned _ => (AppendPlugins self ps (AppendFunctions self fs w1), self)
  | Panicked _ _ => (w1, self)
  end.

End Runtime.

(** The last plugin of a list that reports a name. *)
Definition last_plugin (name : string) (ps : list PluginGeneratorInterface)
  : option PluginGeneratorInterface :=
  List.find (fun p => String.eqb name (plugin_name p)) (rev ps).

(** The last function of a list that reports a name. *)
Definition last_function (name : string) (fs : list FunctionInterface)
  : option FunctionInterface :=
  List.find (fun f => String.eqb name (function_name f)) (rev fs).

(** Every scope has its references, and they point to objects that exist. *)
Definition wf_world (w : World) : Prop :=
  length (pointers w) = length (scopes (state w))
  /\ forall id p, pointers w !! id = Some p ->
       functions p < length (function_maps w)
       /\ plugins p < length (plugin_maps w)
       /\ context p < length (dicts w).

(** For the examples: the state before any scope is allocated, and a
    root scope with two plugins. *)
Definition no_world : World :=
  {| state := no_scope; pointers := []; function_maps := [];
     plugin_maps := []; dicts := [] |}.

Definition sample_world : World :=
  fst (vfilter_NewScope sample_growcap sample_implements []
         [{| function_name := "len"; function_tag := 1 |}]
         [{| plugin_name := "scope"; plugin_tag := 1 |};
          {| plugin_name := "if"; plugin_tag := 2 |}]
         no_world).

End World.

(** * Properties *)

(** ** Iterate *)

Section IterateFacts.
Import Iterate.

Lemma first_applicable_none (impls : list IterateProtocol) (a : Any) :
  (forall i, i ∈ impls -> Applicable i a = false) ->
  first_applicable impls a = None.
Proof.
  induction impls as [|i rest IH]; intros Hnone; simpl; [reflexivity|].
  rewrite (Hnone i) by apply list_elem_of_here.
  apply IH. intros j Hj. apply Hnone. by apply list_elem_of_further.
Qed.

(** C4, as amended: a value that is neither a LazyExpr, a StoredQuery
    nor a dictionary, and to which no registered implementation is
    applicable, iterates to the single row {_value: a}, and to no row at
    all when it is Null. *)
Theorem Iterate_default (is_null : Any -> bool) (self : IterateDispatcher)
    (ctx : Context) (a : Any) :
  fast_path a = false ->
  (forall i, i ∈ impl self -> Applicable i a = false) ->
  Iterate is_null self ctx a =
    if is_null a then [] else [VDict [("_value"%string, a)]].
Proof.
  intros Hfast Hnone.
  destruct a; simpl in Hfast; try discriminate; simpl;
    rewrite (first_applicable_none _ _ Hnone); reflexivity.
Qed.

Lemma Iterate_default_witness :
  Iterate is_null_spec {| impl := [slices_only] |} {| ctx_done := false |} (VInt 7)
    = [VDict [("_value"%string, VInt 7)]]
  /\ Iterate is_null_spec {| impl := [slices_only] |} {| ctx_done := false |} VNull
    = [].
Proof.
  split.
  - apply (Iterate_default is_null_spec {| impl := [slices_only] |}
             {| ctx_done := false |} (VInt 7)); [reflexivity|].
    intros i Hi. apply list_elem_of_singleton in Hi. subst i. reflexivity.
  - apply (Iterate_default is_null_spec {| impl := [slices_only] |}
             {| ctx_done := false |} VNull); [reflexivity|].
    intros i Hi. apply list_elem_of_singleton in Hi. subst i. reflexivity.
Defined.

(** C4, as stated, fails on a dictionary: with no implementation
    registered at all, the dictionary itself is the row. *)
Lemma Iterate_dict_is_its_own_row :
  ~ (forall (is_null : Any -> bool) (self : IterateDispatcher) (ctx : Context)
            (a : Any),
        (forall i, i ∈ impl self -> Applicable i a = false) ->
        Iterate is_null self ctx a =
          if is_null a then [] else [VDict [("_value"%string, a)]]).
Proof.
  intros claim.
  specialize (claim is_null_spec {| impl := [] |} {| ctx_done := false |}
                (VDict [("foo"%string, VInt 1)])).
  simpl in claim.
  assert (H : forall i : IterateProtocol, i ∈ [] ->
            Applicable i (VDict [("foo"%string, VInt 1)]) = false).
  { intros i Hi. inversion Hi. }
  specialize (claim H). discriminate claim.
Qed.

End IterateFacts.

(** ** Resolve *)

Section ResolveFacts.
Import Scopes.

Variable Associative : Row -> string -> Any * bool.

Lemma resolve_loop_present (newer older : list Row) (frame : Row)
    (field : string) (v d : Any) :
  Associative frame field = (v, true) ->
  (forall r, r ∈ newer -> snd (Associative r field) = false) ->
  resolve_loop Associative (newer ++ frame :: older) field d
    = (if is_nil v then VNull else v, true).
Proof.
  intros Hframe. revert d.
  induction newer as [|r newer IH]; intros d Hnewer; simpl.
  - rewrite Hframe. reflexivity.
  - pose proof (Hnewer r (list_elem_of_here _ _)) as Hr.
    destruct (Associative r field) as [e pres]. simpl in Hr. subst pres.
    assert (Hrest : forall r', r' ∈ newer -> snd (Associative r' field) = false).
    { intros r' Hr'. apply Hnewer. by apply list_elem_of_further. }
    destruct (negb (is_nil e) && is_nil d); by apply IH.
Qed.

Lemma resolve_loop_absent (frames : list Row) (field : string) (d : Any) :
  (forall r, r ∈ frames -> snd (Associative r field) = false) ->
  resolve_loop Associative frames field d =
    if is_nil d then
      match defaults Associative frames field with
      | e :: _ => (e, true)
      | [] => (Nil, false)
      end
    else (d, true).
Proof.
  revert d. induction frames as [|r frames IH]; intros d Habsent; simpl.
  - destruct d; reflexivity.
  - pose proof (Habsent r (list_elem_of_here _ _)) as Hr.
    assert (Hrest : forall r', r' ∈ frames -> snd (Associative r' field) = false).
    { intros r' Hr'. apply Habsent. by apply list_elem_of_further. }
    unfold defaults. simpl. fold (defaults Associative frames field).
    destruct (Associative r field) as [e pres]. simpl in Hr. subst pres. simpl.
    destruct (is_nil e) eqn:He, (is_nil d) eqn:Hd; simpl;
      rewrite IH by done; rewrite ?Hd, ?He; reflexivity.
Qed.

End ResolveFacts.

Section ResolveClaims.
Import Scopes.

Lemma get_AppendVars_vars (st : State) (self : nat) (row : Row) :
  self < length (scopes st) ->
  vars (get (AppendVars self row st) self) = vars (get st self) ++ [row].
Proof.
  intros Hself. unfold AppendVars, set, get at 1. simpl.
  rewrite list_lookup_insert_eq by done. reflexivity.
Qed.

(** C6, as amended: Resolve walks the frames newest-first and returns
    the value of the most recently appended frame in which the name is
    present, a nil value being returned as Null; so after
    AppendVars({k:v2}) over earlier frames, Resolve(k) returns v2, or
    Null when v2 is nil. *)
Theorem Resolve_newest_first (Associative : Row -> string -> Any * bool)
    (st : State) (self : nat) (field : string)
    (older newer : list Row) (frame : Row) (v : Any) :
  self < length (scopes st) ->
  vars (get st self) = older ++ frame :: newer ->
  Associative frame field = (v, true) ->
  (forall r, r ∈ newer -> snd (Associative r field) = false) ->
  Resolve Associative (get st self) field = (if is_nil v then VNull else v, true)
  /\ forall row v2,
      Associative row field = (v2, true) ->
      Resolve Associative (get (AppendVars self row st) self) field
        = (if is_nil v2 then VNull else v2, true).
Proof.
  intros Hself Hvars Hframe Hnewer. split.
  - unfold Resolve. rewrite Hvars, rev_app_distr. simpl. rewrite <- app_assoc.
    simpl. apply resolve_loop_present; [done|].
    intros r Hr. apply Hnewer. apply list_elem_of_In. apply in_rev.
    by apply list_elem_of_In.
  - intros row v2 Hrow. unfold Resolve.
    rewrite get_AppendVars_vars by done. rewrite rev_app_distr. simpl.
    rewrite Hrow. reflexivity.
Qed.

Lemma Resolve_newest_first_witness :
  let st := AppendVars 0 (VDict [("k"%string, VInt 1)]) one_scope in
  Resolve dict_Associative (get st 0) "k" = (VInt 1, true)
  /\ Resolve dict_Associative
       (get (AppendVars 0 (VDict [("k"%string, VInt 2)]) st) 0) "k"
     = (VInt 2, true).
Proof.
  destruct (Resolve_newest_first dict_Associative
              (AppendVars 0 (VDict [("k"%string, VInt 1)]) one_scope)
              0 "k" [VDict [("NULL"%string, VNull)]] []
              (VDict [("k"%string, VInt 1)]) (VInt 1))
    as [H1 H2].
  - simpl. lia.
  - reflexivity.
  - reflexivity.
  - intros r Hr. inversion Hr.
  - split; [exact H1|].
    exact (H2 (VDict [("k"%string, VInt 2)]) (VInt 2) eq_refl).
Defined.

(** C6, as stated, fails when the newest binding is nil: Resolve
    answers Null, not the bound value. *)
Lemma Resolve_nil_is_not_returned :
  ~ (forall (st : State) (self : nat) (k : string) (v1 v2 : Any),
        self < length (scopes st) ->
        Resolve dict_Associative
          (get (AppendVars self (VDict [(k, v2)])
                  (AppendVars self (VDict [(k, v1)]) st)) self) k
        = (v2, true)).
Proof.
  intros claim.
  specialize (claim one_scope 0 "k"%string (VInt 1) Nil).
  assert (H : 0 < length (scopes one_scope)) by (simpl; lia).
  specialize (claim H). vm_compute in claim. discriminate claim.
Qed.

(** C10: when no frame reports the field as present, Resolve returns
    the first non-nil value that Associative returned while walking the
    frames newest-first, and reports it present; without any such
    default it returns nil and not present. *)
Theorem Resolve_default (Associative : Row -> string -> Any * bool)
    (s : Scope) (field : string) :
  (forall r, r ∈ vars s -> snd (Associative r field) = false) ->
  Resolve Associative s field =
    match defaults Associative (rev (vars s)) field with
    | e :: _ => (e, true)
    | [] => (Nil, false)
    end
  /\ (snd (Resolve Associative s field) = true <->
      defaults Associative (rev (vars s)) field <> []).
Proof.
  intros Habsent.
  assert (Hrev : forall r, r ∈ rev (vars s) -> snd (Associative r field) = false).
  { intros r Hr. apply Habsent. apply list_elem_of_In. apply in_rev.
    by apply list_elem_of_In. }
  unfold Resolve. rewrite (resolve_loop_absent Associative _ _ Nil Hrev). simpl.
  split; [reflexivity|].
  destruct (defaults Associative (rev (vars s)) field); simpl; split;
    intros H; congruence.
Qed.

Lemma Resolve_default_witness :
  let s := get (AppendVars 0 (VHost 0)
                  (AppendVars 0 (VHost 6)
                     (AppendVars 0 (VHost 3) one_scope))) 0 in
  Resolve host_Associative s "k" = (VInt 5, true).
Proof.
  refine (proj1 (Resolve_default host_Associative
                   (get (AppendVars 0 (VHost 0)
                           (AppendVars 0 (VHost 6)
                              (AppendVars 0 (VHost 3) one_scope))) 0) "k" _)).
  intros r Hr. destruct r as [| | | | | | | | |[|n]]; reflexivity.
Defined.

End ResolveClaims.

(** ** LET, lazy and materialized *)

Section LetFacts.
Import Let.

Lemma lookup_var_head (x : string) (b : Binding) (env : Env) :
  lookup_var x ((x, b) :: env) = Some b.
Proof. simpl. by rewrite String.eqb_refl. Qed.

Lemma bind_run {A B : Type} (m : M A) (k : A -> M B) (h : Host) :
  bind m k h = k (fst (m h)) (snd (m h)).
Proof. unfold bind. destruct (m h). reflexivity. Qed.

(** A query over any source invokes the function once per source row. *)
Lemma select_call_counter (source : list Row) (h : Host) :
  snd (select_call counter source h) = h + length source.
Proof.
  revert h. induction source as [|r source IH]; intros h; simpl.
  - unfold ret. simpl. lia.
  - unfold bind. change (counter h) with (VInt (Scopes.wrap_int (Z.of_nat (S h))), S h).
    cbv iota beta. specialize (IH (S h)).
    destruct (select_call counter source (S h)) as [rows h'].
    simpl in *. lia.
Qed.

Lemma references_lazy (q : StoredQuery) (x : string) (env : Env) (n : nat)
    (calls : nat) (h : Host) :
  (forall h', snd (Eval q h') = h' + calls) ->
  snd (references n x ((x, BStoredQuery q) :: env) h) = h + n * calls.
Proof.
  intros Hq. revert h. induction n as [|n IH]; intros h.
  - simpl. unfold ret. simpl. lia.
  - cbn [references]. unfold bind, reference. rewrite lookup_var_head.
    specialize (Hq h). destruct (Eval q h) as [rows h1]. simpl in Hq.
    specialize (IH h1).
    destruct (references n x ((x, BStoredQuery q) :: env) h1) as [more h2].
    simpl in *. lia.
Qed.

Lemma references_materialized (rows : list Row) (x : string) (env : Env)
    (n : nat) (h : Host) :
  references n x ((x, BSequence rows) :: env) h = (replicate n rows, h).
Proof.
  induction n as [|n IH]; [reflexivity|].
  cbn [references]. unfold bind, reference. rewrite lookup_var_head.
  unfold ret at 1. rewrite IH. reflexivity.
Qed.


(** The model passes the repository's test: its assertions expect the
    counter at 0, 1, 1, 2, 3 and 3. *)
Example TestMaterializedStoredQuery_passes (scope_row : Row) :
  fst (TestMaterializedStoredQuery scope_row 0) = [0; 1; 1; 2; 3; 3].
Proof. reflexivity. Qed.

End LetFacts.

(** ** Silently trapped arithmetic *)

Section TestFacts.
Import Tests.

(** Nothing but Null is equal to Null. *)
Lemma Eq_Null_r (eq_impls : Any -> Any -> bool) (a : Any) :
  Eq eq_impls a VNull = true -> a = VNull.
Proof.
  unfold Eq. destruct a; simpl; intros H; try discriminate H. reflexivity.
Qed.

(** Null is equal to nothing but Null. *)
Lemma Eq_Null_l (eq_impls : Any -> Any -> bool) (b : Any) :
  Eq eq_impls VNull b = true -> b = VNull.
Proof.
  unfold Eq. destruct b; simpl; intros H; try discriminate H. reflexivity.
Qed.




End TestFacts.

(** ** Slices and dispatcher lists *)

Section SliceFacts.
Import Scopes Invariants.

Variable growcap : nat -> nat -> nat.

Lemma sep_sym (s t : Slice) : sep s t -> sep t s.
Proof. unfold sep. intros [H|[H|H]]; auto. Qed.

Lemma valid_nil_slice (arrs : list (list Any)) : valid arrs nil_slice.
Proof. split; simpl; auto. Qed.

Lemma slice_read_nil_slice (arrs : list (list Any)) :
  slice_read arrs nil_slice = [].
Proof. unfold slice_read. simpl. apply take_0. Qed.

Lemma slice_read_length (arrs : list (list Any)) (s : Slice) :
  valid arrs s -> length (slice_read arrs s) = s_len s.
Proof.
  intros [Hlen [Hcap|(arr & Harr & Hcap)]]; unfold slice_read.
  - assert (s_len s = 0) as -> by lia. by rewrite take_0.
  - rewrite Harr. simpl. apply length_take_le. lia.
Qed.

(** A slice that is within its array stays so, and shows the same
    elements, when arrays are only added. *)
Lemma valid_grow (arrs more : list (list Any)) (t : Slice) :
  valid arrs t ->
  valid (arrs ++ more) t /\ slice_read (arrs ++ more) t = slice_read arrs t.
Proof.
  intros [Hlen [Hcap|(arr & Harr & Hcap)]].
  - split; [split; auto|].
    unfold slice_read. assert (s_len t = 0) as -> by lia. by rewrite !take_0.
  - assert (Happ : (arrs ++ more) !! s_ptr t = Some arr)
      by by apply lookup_app_l_Some.
    split; [split; [done|right; eauto]|].
    unfold slice_read. by rewrite Happ, Harr.
Qed.

(** What [append] guarantees: the result shows the old elements
    followed by the new ones, and every slice that does not share the
    array of the argument is left as it was, apart from the result. *)
Lemma slice_append_spec (arrs arrs' : list (list Any)) (s s' : Slice)
    (xs : list Any) :
  valid arrs s ->
  slice_append growcap arrs s xs = (arrs', s') ->
  valid arrs' s'
  /\ slice_read arrs' s' = slice_read arrs s ++ xs
  /\ length arrs <= length arrs'
  /\ forall t, valid arrs t -> sep s t ->
        valid arrs' t /\ slice_read arrs' t = slice_read arrs t /\ sep s' t.
Proof.
  intros Hs Happ. pose proof (slice_read_length arrs s Hs) as Hrl.
  destruct Hs as [Hlen Hcap]. unfold slice_append in Happ.
  destruct (s_len s + length xs <=? s_cap s) eqn:Hfit.
  - apply Nat.leb_le in Hfit. injection Happ as <- <-.
    destruct (decide (s_cap s = 0)) as [Hc0|Hc0];
      [|destruct Hcap as [Hcap|(arr & Harr & Hcap)]; [lia|]].
    + (* capacity 0: nothing is appended and nothing written *)
      assert (s_len s = 0) as Hl0 by lia.
      assert (xs = []) as -> by (destruct xs; [done|simpl in Hfit; lia]).
      assert (Hid : <[s_ptr s := take (s_len s) (default [] (arrs !! s_ptr s))
                         ++ [] ++ drop (s_len s + length (@nil Any))
                                    (default [] (arrs !! s_ptr s))]> arrs = arrs).
      { rewrite Hl0. simpl. rewrite drop_0.
        destruct (arrs !! s_ptr s) as [arr|] eqn:E; simpl.
        - by apply list_insert_id.
        - apply list_insert_ge. by apply lookup_ge_None. }
      rewrite Hid. split; [|split; [|split]].
      * split; simpl; [lia|]. by left.
      * unfold slice_read. simpl. by rewrite Hl0, !take_0.
      * lia.
      * intros t Ht Hsep. split; [done|]. split; [done|]. by left.
    + rewrite Harr. simpl.
      pose proof (lookup_lt_Some _ _ _ Harr) as Hptr.
      set (new := take (s_len s) arr ++ xs ++ drop (s_len s + length xs) arr).
      assert (Hnew : length new = length arr).
      { unfold new. rewrite !length_app, length_take_le, length_drop by lia. lia. }
      assert (Hlook : <[s_ptr s := new]> arrs !! s_ptr s = Some new)
        by by apply list_lookup_insert_eq.
      split; [|split; [|split]].
      * split; simpl; [lia|]. right. exists new. split; [done|lia].
      * unfold slice_read. simpl. rewrite Hlook, Harr. simpl.
        unfold new. rewrite app_assoc. apply take_app_length'.
        rewrite length_app, length_take_le by lia. lia.
      * rewrite length_insert. lia.
      * intros t [Htlen Htcap] Hsep.
        destruct (decide (s_cap t = 0)) as [Htc0|Htc0];
          [|destruct Htcap as [Htcap|(tarr & Htarr & Htcap)]; [lia|]].
        { assert (s_len t = 0) as Htl by lia.
          split; [split; auto|]. split.
          - unfold slice_read. by rewrite Htl, !take_0.
          - right. left. done. }
        assert (s_ptr s <> s_ptr t) as Hne.
        { destruct Hsep as [H|[H|H]]; [lia|lia|done]. }
        assert (Hsame : <[s_ptr s := new]> arrs !! s_ptr t = Some tarr)
          by by rewrite list_lookup_insert_ne.
        split; [split; [done|right; eauto]|]. split.
        { unfold slice_read. by rewrite Hsame, Htarr. }
        right. right. done.
  - apply Nat.leb_gt in Hfit. injection Happ as <- <-.
    set (n := s_len s + length xs) in *.
    set (c := Nat.max n (growcap (s_cap s) n)).
    set (new := slice_read arrs s ++ xs ++ replicate (c - n) Nil).
    assert (Hnew : length new = c).
    { unfold new. rewrite !length_app, length_replicate, Hrl. unfold n. lia. }
    assert (Hlook : (arrs ++ [new]) !! length arrs = Some new)
      by apply list_lookup_middle, eq_refl.
    split; [|split; [|split]].
    + split; simpl; [lia|]. right. exists new. split; [done|lia].
    + unfold slice_read at 1. simpl. rewrite Hlook. simpl.
      unfold new. rewrite app_assoc. apply take_app_length'.
      rewrite length_app, Hrl. reflexivity.
    + rewrite length_app. simpl. lia.
    + intros t Ht Hsep. destruct (valid_grow arrs [new] t Ht) as [Hv Hr].
      split; [done|]. split; [done|].
      destruct Ht as [_ [Htcap|(tarr & Htarr & _)]].
      * right. left. done.
      * right. right. simpl. apply lookup_lt_Some in Htarr. lia.
Qed.

Lemma dispatcher_AddImpl_spec (elements : list Any) :
  forall (arrs arrs' : list (list Any)) (s s' : Slice),
  valid arrs s ->
  dispatcher_AddImpl growcap arrs s elements = (arrs', s') ->
  valid arrs' s'
  /\ slice_read arrs' s' = slice_read arrs s ++ elements
  /\ length arrs <= length arrs'
  /\ forall t, valid arrs t -> sep s t ->
        valid arrs' t /\ slice_read arrs' t = slice_read arrs t /\ sep s' t.
Proof.
  induction elements as [|i rest IH]; intros arrs arrs' s s' Hs Hadd; simpl in Hadd.
  - injection Hadd as <- <-. rewrite app_nil_r.
    destruct Hs as [Hs1 Hs2]. split; [by split|]. split; [done|].
    split; [lia|]. intros t Ht Hsep. split; [exact Ht|]. split; [reflexivity|exact Hsep].
  - destruct (slice_append growcap arrs s [i]) as [arrs1 s1] eqn:Happ.
    destruct (slice_append_spec _ _ _ _ _ Hs Happ) as (Hv1 & Hr1 & Hl1 & Hf1).
    destruct (IH _ _ _ _ Hv1 Hadd) as (Hv2 & Hr2 & Hl2 & Hf2).
    split; [done|]. split; [|split; [lia|]].
    + rewrite Hr2, Hr1, <- app_assoc. reflexivity.
    + intros t Ht Hsep. destruct (Hf1 t Ht Hsep) as (Htv & Htr & Hts).
      destruct (Hf2 t Htv Hts) as (Htv2 & Htr2 & Hts2).
      split; [done|]. split; [congruence|done].
Qed.

(** A dispatcher's copy shows the same implementations from an array of
    its own. *)
Lemma dispatcher_Copy_spec (arrs arrs' : list (list Any)) (src s' : Slice) :
  dispatcher_Copy growcap arrs src = (arrs', s') ->
  valid arrs' s'
  /\ slice_read arrs' s' = slice_read arrs src
  /\ length arrs <= length arrs'
  /\ forall t, valid arrs t ->
        valid arrs' t /\ slice_read arrs' t = slice_read arrs t /\ sep s' t.
Proof.
  unfold dispatcher_Copy. intros Hcopy.
  destruct (slice_append_spec _ _ _ _ _ (valid_nil_slice arrs) Hcopy)
    as (Hv & Hr & Hl & Hf).
  rewrite slice_read_nil_slice in Hr.
  split; [exact Hv|]. split; [exact Hr|]. split; [exact Hl|].
  intros t Ht. apply Hf; [exact Ht|]. left. reflexivity.
Qed.

Lemma upd_eq (f : Protocol -> Slice) (p : Protocol) (s : Slice) :
  upd f p s p = s.
Proof. unfold upd. by rewrite decide_True. Qed.

Lemma upd_ne (f : Protocol -> Slice) (p q : Protocol) (s : Slice) :
  q <> p -> upd f p s q = f q.
Proof. intros H. unfold upd. by rewrite decide_False. Qed.

(** The copies made for a new scope: each shows what its source shows,
    from an array that neither an older slice nor another copy uses. *)
Lemma copy_dispatchers_spec (ps : list Protocol) (src : Protocol -> Slice) :
  forall (arrs arrs' : list (list Any)) (acc disp : Protocol -> Slice),
  NoDup ps ->
  (forall p, valid arrs (src p)) ->
  copy_dispatchers growcap ps src arrs acc = (arrs', disp) ->
  length arrs <= length arrs'
  /\ (forall t, valid arrs t ->
        valid arrs' t /\ slice_read arrs' t = slice_read arrs t)
  /\ (forall p, p ∉ ps -> disp p = acc p)
  /\ (forall p, p ∈ ps ->
        valid arrs' (disp p)
        /\ slice_read arrs' (disp p) = slice_read arrs (src p)
        /\ forall t, valid arrs t -> sep (disp p) t)
  /\ (forall p q, p ∈ ps -> q ∈ ps -> p <> q -> sep (disp p) (disp q)).
Proof.
  induction ps as [|p rest IH]; intros arrs arrs' acc disp Hnd Hsrc Hcopy;
    simpl in Hcopy.
  - injection Hcopy as <- <-. split; [lia|]. split; [auto|]. split; [auto|].
    split; intros; exfalso; eapply not_elem_of_nil; eauto.
  - apply NoDup_cons in Hnd as [Hp Hnd].
    destruct (dispatcher_Copy growcap arrs (src p)) as [arrs1 s1] eqn:Hc.
    destruct (dispatcher_Copy_spec _ _ _ _ Hc) as (Hv1 & Hr1 & Hl1 & Hf1).
    assert (Hsrc1 : forall q, valid arrs1 (src q)) by (intros q; apply Hf1, Hsrc).
    destruct (IH _ _ _ _ Hnd Hsrc1 Hcopy) as (Hl2 & Hf2 & Hout & Hin & Hsep).
    assert (Hdp : disp p = s1) by (rewrite Hout by done; apply upd_eq).
    assert (Hhead : valid arrs' (disp p)
                    /\ slice_read arrs' (disp p) = slice_read arrs (src p)
                    /\ forall t, valid arrs t -> sep (disp p) t).
    { rewrite Hdp. destruct (Hf2 s1 Hv1) as [Hv Hr].
      split; [done|]. split; [congruence|]. intros t Ht. by apply Hf1. }
    assert (Htail : forall q, q ∈ rest ->
                    valid arrs' (disp q)
                    /\ slice_read arrs' (disp q) = slice_read arrs (src q)
                    /\ forall t, valid arrs t -> sep (disp q) t).
    { intros q Hq. destruct (Hin q Hq) as (Hv & Hr & Hs).
      split; [done|]. split.
      - rewrite Hr. by apply Hf1.
      - intros t Ht. apply Hs. by apply Hf1. }
    split; [lia|]. split; [|split; [|split]].
    + intros t Ht. destruct (Hf1 t Ht) as (Htv & Htr & _).
      destruct (Hf2 t Htv) as [Htv2 Htr2]. split; [done|congruence].
    + intros q Hq. apply not_elem_of_cons in Hq as [Hne Hq].
      rewrite Hout by done. by apply upd_ne.
    + intros q Hq. apply elem_of_cons in Hq as [->|Hq]; auto.
    + intros q r Hq Hr Hne.
      apply elem_of_cons in Hq as [->|Hq]; apply elem_of_cons in Hr as [->|Hr].
      * done.
      * apply sep_sym. rewrite Hdp. by apply (Hin r Hr).
      * rewrite Hdp. by apply (Hin q Hq).
      * by apply Hsep.
Qed.

Lemma NoDup_protocols : NoDup protocols.
Proof. unfold protocols. apply NoDup_ListNoDup. repeat constructor; simpl; intuition discriminate. Qed.

Lemma elem_of_protocols (p : Protocol) : p ∈ protocols.
Proof.
  unfold protocols. apply list_elem_of_In. destruct p; simpl; tauto.
Qed.

End SliceFacts.

(** ** Dispatchers of a scope *)

Section DispatcherFacts.
Import Scopes Invariants.

Variable growcap : nat -> nat -> nat.

Lemma get_insert_eq (l : list Scope) (arrs : list (list Any)) (self : nat)
    (s : Scope) :
  self < length l ->
  get {| scopes := <[self := s]> l; arrays := arrs |} self = s.
Proof. intros H. unfold get. simpl. by rewrite list_lookup_insert_eq. Qed.

Lemma get_insert_ne (l : list Scope) (arrs arrs' : list (list Any))
    (self id : nat) (s : Scope) :
  id <> self ->
  get {| scopes := <[self := s]> l; arrays := arrs |} id
    = get {| scopes := l; arrays := arrs' |} id.
Proof. intros H. unfold get. simpl. by rewrite list_lookup_insert_ne. Qed.

Lemma get_arrays (l : list Scope) (arrs arrs' : list (list Any)) (id : nat) :
  get {| scopes := l; arrays := arrs |} id
    = get {| scopes := l; arrays := arrs' |} id.
Proof. reflexivity. Qed.

Lemma get_out_of_range (st : State) (id : nat) :
  length (scopes st) <= id -> get st id = zero_scope.
Proof. intros H. unfold get. by rewrite lookup_ge_None_2. Qed.

Lemma untouched_refl (s : Scope) : untouched s s.
Proof. by repeat split. Qed.

Lemma untouched_trans (s1 s2 s3 : Scope) :
  untouched s1 s2 -> untouched s2 s3 -> untouched s1 s3.
Proof.
  intros (A1 & A2 & A3 & A4) (B1 & B2 & B3 & B4). repeat split; congruence.
Qed.

(** Replacing one dispatcher list by the result of an [append] on it
    keeps the lists apart. *)
Lemma slices_ok_update (st st' : State) (self : nat) (p : Protocol)
    (sl : Slice) :
  slices_ok st ->
  (forall id q, dispatcher (get st' id) q =
                if decide (id = self /\ q = p) then sl
                else dispatcher (get st id) q) ->
  valid (arrays st') sl ->
  (forall t, valid (arrays st) t -> sep (dispatcher (get st self) p) t ->
             valid (arrays st') t /\ sep sl t) ->
  slices_ok st'.
Proof.
  intros [Hval Hsep] Hslot Hsl Hframe. split.
  - intros id q. rewrite Hslot. case_decide as E; [done|].
    apply Hframe; [apply Hval|]. apply Hsep.
    destruct (decide (self = id)) as [->|]; [|by left].
    right. intros ->. by apply E.
  - intros id1 id2 q1 q2 Hne. rewrite !Hslot.
    case_decide as E1; case_decide as E2.
    + destruct E1 as [-> ->], E2 as [-> ->]. by destruct Hne.
    + apply Hframe; [apply Hval|]. apply Hsep.
      destruct E1 as [-> ->].
      destruct (decide (self = id2)) as [->|]; [|by left].
      right. intros ->. by apply E2.
    + apply sep_sym. apply Hframe; [apply Hval|]. apply Hsep.
      destruct E2 as [-> ->].
      destruct (decide (self = id1)) as [->|]; [|by left].
      right. intros ->. by apply E1.
    + by apply Hsep.
Qed.

(** [AddImpl] appends to the list of its protocol in its scope, and
    leaves every other list, and all else in every scope, as it was. *)
Lemma AddImpl_spec (st : State) (self : nat) (p : Protocol) (t : Any) :
  slices_ok st ->
  self < length (scopes st) ->
  slices_ok (AddImpl growcap self p t st)
  /\ length (scopes (AddImpl growcap self p t st)) = length (scopes st)
  /\ impls (AddImpl growcap self p t st) self p = impls st self p ++ [t]
  /\ (forall id q, id <> self \/ q <> p ->
        impls (AddImpl growcap self p t st) id q = impls st id q)
  /\ (forall id, untouched (get st id) (get (AddImpl growcap self p t st) id)).
Proof.
  intros Hok Hself. unfold AddImpl.
  destruct (dispatcher_AddImpl growcap (arrays st) (dispatcher (get st self) p) [t])
    as [arrs sl] eqn:Hadd.
  destruct (dispatcher_AddImpl_spec growcap _ _ _ _ _ (proj1 Hok self p) Hadd)
    as (Hv & Hr & Hl & Hf).
  set (s' := {| vars := vars (get st self);
                dispatcher := upd (dispatcher (get st self)) p sl;
                stack_depth := stack_depth (get st self);
                children := children (get st self);
                destructors := destructors (get st self) |}).
  set (st' := {| scopes := <[self := s']> (scopes st); arrays := arrs |}).
  assert (Hslot : forall id q, dispatcher (get st' id) q =
                    if decide (id = self /\ q = p) then sl
                    else dispatcher (get st id) q).
  { intros id q. destruct (decide (id = self)) as [->|Hid].
    - unfold st'. rewrite get_insert_eq by done. simpl.
      case_decide as E.
      + destruct E as [_ ->]. apply upd_eq.
      + apply upd_ne. intros ->. by apply E.
    - unfold st'. rewrite (get_insert_ne _ _ (arrays st)) by done.
      rewrite decide_False by (intros [? _]; done). by destruct st. }
  split; [|split; [|split; [|split]]].
  - apply (slices_ok_update st st' self p sl); try done.
    intros u Hu Hsep. destruct (Hf u Hu Hsep) as (? & _ & ?). done.
  - simpl. apply length_insert.
  - unfold impls. rewrite Hslot, decide_True by done. exact Hr.
  - intros id q Hne. unfold impls. rewrite Hslot.
    rewrite decide_False by (intros [-> ->]; by destruct Hne).
    apply Hf; [apply Hok|]. apply Hok.
    destruct Hne; [left|right]; congruence.
  - intros id. destruct (decide (id = self)) as [->|Hid].
    + unfold st'. rewrite get_insert_eq by done. by repeat split.
    + unfold st'. rewrite (get_insert_ne _ _ (arrays st)) by done.
      destruct st. apply untouched_refl.
Qed.

(** A scope allocated with copies of the dispatchers of another: the
    new lists show what the sources show, the old lists are as before,
    and all lists are apart. *)
Lemma alloc_spec (st : State) (l : list Scope) (c : Scope)
    (src acc disp : Protocol -> Slice) (arrs : list (list Any)) :
  slices_ok st ->
  length l = length (scopes st) ->
  (forall id, dispatcher (default zero_scope (l !! id)) = dispatcher (get st id)) ->
  (forall p, valid (arrays st) (src p)) ->
  copy_dispatchers growcap protocols src (arrays st) acc = (arrs, disp) ->
  dispatcher c = disp ->
  slices_ok {| scopes := l ++ [c]; arrays := arrs |}
  /\ (forall p, impls {| scopes := l ++ [c]; arrays := arrs |} (length l) p
               = slice_read (arrays st) (src p))
  /\ (forall id p, id <> length l ->
        impls {| scopes := l ++ [c]; arrays := arrs |} id p = impls st id p).
Proof.
  intros [Hval Hsep] Hlen Hdisp Hsrc Hcopy Hc.
  destruct (copy_dispatchers_spec growcap _ _ _ _ _ _ NoDup_protocols Hsrc Hcopy)
    as (_ & Hframe & _ & Hin & Hnew).
  set (st' := {| scopes := l ++ [c]; arrays := arrs |}).
  assert (Hslot : forall id q, dispatcher (get st' id) q =
                    if decide (id = length l) then disp q
                    else dispatcher (get st id) q).
  { intros id q. unfold get at 1, st'. simpl. case_decide as E.
    - subst id. rewrite list_lookup_middle by done. simpl. by rewrite Hc.
    - destruct (decide (id < length l)) as [Hlt|Hge].
      + rewrite lookup_app_l by done. by rewrite Hdisp.
      + rewrite lookup_ge_None_2 by (rewrite length_app; simpl; lia).
        rewrite get_out_of_range by lia. reflexivity. }
  split; [split|split].
  - intros id q. rewrite Hslot. case_decide.
    + apply Hin, elem_of_protocols.
    + apply Hframe, Hval.
  - intros id1 id2 q1 q2 Hne. rewrite !Hslot.
    case_decide as E1; case_decide as E2.
    + apply Hnew; try apply elem_of_protocols.
      destruct Hne as [Hne|Hne]; [congruence|done].
    + apply (Hin q1 (elem_of_protocols q1)), Hval.
    + apply sep_sym. apply (Hin q2 (elem_of_protocols q2)), Hval.
    + by apply Hsep.
  - intros q. unfold impls. rewrite Hslot, decide_True by done.
    apply (Hin q (elem_of_protocols q)).
  - intros id q Hid. unfold impls. rewrite Hslot, decide_False by done.
    apply Hframe, Hval.
Qed.

Lemma Copy_unfold (st : State) (self : nat) :
  exists arrs disp,
    copy_dispatchers growcap protocols (dispatcher (get st self)) (arrays st)
      (fun _ => nil_slice) = (arrs, disp)
    /\ Copy growcap self st =
       ({| scopes :=
             <[self := {| vars := vars (get st self);
                          dispatcher := dispatcher (get st self);
                          stack_depth := stack_depth (get st self);
                          children := children (get st self) ++ [length (scopes st)];
                          destructors := destructors (get st self) |}]> (scopes st)
             ++ [{| vars := vars (get st self);
                    dispatcher := disp;
                    stack_depth := wrap_int (stack_depth (get st self) + 1);
                    children := [];
                    destructors := {| fn := []; is_destroyed := false |} |}];
           arrays := arrs |},
        length (scopes st)).
Proof.
  unfold Copy.
  destruct (copy_dispatchers growcap protocols (dispatcher (get st self))
              (arrays st) (fun _ => nil_slice)) as [arrs disp].
  exists arrs, disp. split; reflexivity.
Qed.

(** [Copy] gives the child lists that show what the parent's lists
    show, apart from every other list. *)
Lemma Copy_slices (st : State) (self : nat) :
  slices_ok st ->
  self < length (scopes st) ->
  slices_ok (fst (Copy growcap self st))
  /\ (forall p, impls (fst (Copy growcap self st)) (length (scopes st)) p
               = impls st self p)
  /\ (forall id p, id <> length (scopes st) ->
        impls (fst (Copy growcap self st)) id p = impls st id p).
Proof.
  intros Hok Hself.
  destruct (Copy_unfold st self) as (arrs & disp & Hcopy & ->). simpl.
  set (l := <[self := _]> (scopes st)).
  assert (Hlen : length l = length (scopes st)) by apply length_insert.
  rewrite <- Hlen.
  apply (alloc_spec st l _ (dispatcher (get st self)) (fun _ => nil_slice) disp);
    try done.
  - intros id. unfold l. destruct (decide (id = self)) as [->|Hne].
    + by rewrite list_lookup_insert_eq.
    + by rewrite list_lookup_insert_ne.
  - intros p. apply Hok.
Qed.

Variable implements : Any -> Protocol -> bool.

Lemma route_None (imp : Any) :
  route implements imp = None <-> forall p, implements imp p = false.
Proof.
  unfold route. split.
  - intros H p. apply (find_none _ _ H). apply list_elem_of_In, elem_of_protocols.
  - intros H. destruct (List.find (implements imp) protocols) as [p|] eqn:E; [|done].
    apply find_some in E as [_ E]. rewrite H in E. discriminate.
Qed.

Lemma route_Some (imp : Any) (p : Protocol) :
  route implements imp = Some p -> implements imp p = true.
Proof. unfold route. intros H. by apply find_some in H as [_ H]. Qed.

(** Whatever happens, [AddProtocolImpl] changes nothing but dispatcher
    lists of its own scope. *)
Lemma AddProtocolImpl_frame (self : nat) (imps : list Any) :
  forall st,
  slices_ok st ->
  self < length (scopes st) ->
  slices_ok (state_of (AddProtocolImpl growcap implements self imps st))
  /\ length (scopes (state_of (AddProtocolImpl growcap implements self imps st)))
     = length (scopes st)
  /\ (forall id q, id <> self ->
        impls (state_of (AddProtocolImpl growcap implements self imps st)) id q
        = impls st id q)
  /\ (forall id,
        untouched (get st id)
          (get (state_of (AddProtocolImpl growcap implements self imps st)) id)).
Proof.
  induction imps as [|imp rest IH]; intros st Hok Hself; simpl.
  - split; [done|]. split; [done|]. split; [done|]. intros id. apply untouched_refl.
  - destruct (route implements imp) as [p|]; simpl.
    + destruct (AddImpl_spec st self p imp Hok Hself) as (Hok1 & Hlen1 & _ & Hf1 & Hu1).
      destruct (IH _ Hok1 ltac:(lia)) as (Hok2 & Hlen2 & Hf2 & Hu2).
      split; [done|]. split; [lia|]. split.
      * intros id q Hid. rewrite Hf2 by done. apply Hf1. by left.
      * intros id. eapply untouched_trans; [apply Hu1|apply Hu2].
    + split; [done|]. split; [done|]. split; [done|]. intros id. apply untouched_refl.
Qed.

(** With every value routed, [AddProtocolImpl] returns, each list of
    its scope extended by the values routed to it, in order. *)
Lemma AddProtocolImpl_returns (self : nat) (imps : list Any) :
  forall st,
  slices_ok st ->
  self < length (scopes st) ->
  (forall imp, imp ∈ imps -> route implements imp <> None) ->
  exists st',
    AddProtocolImpl growcap implements self imps st = Returned st'
    /\ forall q, impls st' self q
                = impls st self q ++ List.filter (routed_to implements q) imps.
Proof.
  induction imps as [|imp rest IH]; intros st Hok Hself Hrouted; simpl.
  - exists st. split; [done|]. intros q. by rewrite app_nil_r.
  - pose proof (Hrouted imp (list_elem_of_here _ _)) as Himp.
    unfold routed_to.
    destruct (route implements imp) as [p|] eqn:Hp; [|done].
    destruct (AddImpl_spec st self p imp Hok Hself) as (Hok1 & Hlen1 & Hr1 & Hf1 & _).
    destruct (IH (AddImpl growcap self p imp st) Hok1 ltac:(lia)) as (st' & Hret & Hlists).
    { intros i Hi. apply Hrouted. by apply list_elem_of_further. }
    exists st'. split; [done|]. intros q. rewrite Hlists. unfold routed_to.
    destruct (decide (p = q)) as [->|Hne].
    + rewrite bool_decide_eq_true_2 by done. rewrite Hr1, <- app_assoc. reflexivity.
    + rewrite bool_decide_eq_false_2 by done. rewrite Hf1 by (right; congruence).
      reflexivity.
Qed.

(** With a value that none of the cases takes, [AddProtocolImpl] panics. *)
Lemma AddProtocolImpl_panics (self : nat) (imps : list Any) :
  forall st,
  (exists imp, imp ∈ imps /\ route implements imp = None) ->
  exists st',
    AddProtocolImpl growcap implements self imps st
      = Panicked "Unsupported interface" st'.
Proof.
  induction imps as [|imp rest IH]; intros st (bad & Hin & Hbad).
  - inversion Hin.
  - simpl. destruct (route implements imp) as [p|] eqn:Hp.
    + apply IH. exists bad. split; [|done].
      apply elem_of_cons in Hin as [->|Hin]; [congruence|done].
    + by exists st.
Qed.

End DispatcherFacts.


(** ** Close *)

Section CloseFacts.
Import Scopes Invariants.

Lemma closing_refl (st : State) : closing st st [].
Proof. unfold closing. repeat split; auto. Qed.

Lemma closing_tree_ok (st st' : State) (tr : list Event) :
  closing st st' tr -> tree_ok st -> tree_ok st'.
Proof.
  intros (Hlen & _ & Hsame & _) Htree id c Hc.
  rewrite Hlen. apply Htree. destruct (Hsame id) as (_ & _ & _ & <-). done.
Qed.

Lemma closed_in_later (st st1 st2 : State) (tr1 tr2 : list Event) (id : nat) :
  closed_in st st1 tr1 id ->
  closing st1 st2 tr2 ->
  closed_in st st2 (tr1 ++ tr2) id.
Proof.
  intros (Hd & Hfn & Hev & Hst) (_ & _ & _ & Hdes).
  assert (Hlater : is_destroyed (destructors (get st2 id)) = true
                   /\ fn (destructors (get st2 id)) = []).
  { destruct (Hdes id) as [->|(? & ? & _)]; done. }
  destruct Hlater as [Hd2 Hfn2].
  split; [done|]. split; [done|]. split.
  - apply elem_of_app. by left.
  - intros d Hin. apply elem_of_app. left. by apply Hst.
Qed.

Lemma closed_in_earlier (st st1 st2 : State) (tr1 tr2 : list Event) (id : nat) :
  closing st st1 tr1 ->
  closed_in st1 st2 tr2 id ->
  closed_in st st2 (tr1 ++ tr2) id.
Proof.
  intros (_ & _ & _ & Hdes) (Hd & Hfn & Hev & Hst).
  split; [done|]. split; [done|]. split.
  - apply elem_of_app. by right.
  - intros d Hin. apply elem_of_app.
    destruct (Hdes id) as [Hsame|(_ & _ & _ & Hst1)].
    + right. apply Hst. by rewrite Hsame.
    + left. by apply Hst1.
Qed.

Lemma closing_trans (st st1 st2 : State) (tr1 tr2 : list Event) :
  closing st st1 tr1 -> closing st1 st2 tr2 -> closing st st2 (tr1 ++ tr2).
Proof.
  intros H1 H2.
  pose proof H1 as (Hlen1 & Harr1 & Hsame1 & Hdes1).
  pose proof H2 as (Hlen2 & Harr2 & Hsame2 & Hdes2).
  split; [congruence|]. split; [congruence|]. split.
  - intros id. destruct (Hsame1 id) as (A1 & A2 & A3 & A4).
    destruct (Hsame2 id) as (B1 & B2 & B3 & B4). repeat split; congruence.
  - intros id. destruct (Hdes2 id) as [Hsame2'|Hclosed2].
    + destruct (Hdes1 id) as [Hsame1'|Hclosed1].
      * left. congruence.
      * right. by eapply closed_in_later.
    + right. by eapply closed_in_earlier.
Qed.

Lemma get_set_eq (st : State) (self : nat) (s : Scope) :
  self < length (scopes st) -> get (set st self s) self = s.
Proof. intros H. unfold get, set. simpl. by rewrite list_lookup_insert_eq. Qed.

Lemma get_set_ne (st : State) (self id : nat) (s : Scope) :
  id <> self -> get (set st self s) id = get st id.
Proof. intros H. unfold get, set. simpl. by rewrite list_lookup_insert_ne. Qed.

Lemma run_destructors_scope (self : nat) (ds : list Destructor) (e : Event) :
  e ∈ run_destructors self ds -> event_scope e = self.
Proof.
  unfold run_destructors. intros H. apply list_elem_of_fmap in H as (d & -> & _).
  reflexivity.
Qed.

Lemma run_destructors_started (self : nat) (ds : list Destructor) (d : Destructor) :
  d ∈ ds -> Started self d (wait d) ∈ run_destructors self ds.
Proof.
  intros H. unfold run_destructors. apply list_elem_of_fmap. exists d.
  split; [done|]. apply list_elem_of_In. apply -> in_rev. by apply list_elem_of_In.
Qed.

(** The last steps of [Close], once the children are closed. *)
Lemma close_self (st : State) (self : nat) :
  self < length (scopes st) ->
  let s := get st self in
  let st' :=
    set st self {| vars := vars s;
                   dispatcher := dispatcher s;
                   stack_depth := stack_depth s;
                   children := children s;
                   destructors := {| fn := []; is_destroyed := true |} |} in
  let tr := Destroyed self :: run_destructors self ([] ++ fn (destructors s)) in
  closing st st' tr /\ closed_in st st' tr self.
Proof.
  intros Hself s st' tr.
  assert (Hclosed : closed_in st st' tr self).
  { unfold closed_in, st'. rewrite get_set_eq by done. simpl.
    split; [done|]. split; [done|]. split.
    - apply list_elem_of_here.
    - intros d Hd. apply list_elem_of_further. by apply run_destructors_started. }
  split; [|done].
  split; [apply length_insert|]. split; [done|]. split.
  - intros id. destruct (decide (id = self)) as [->|Hne].
    + unfold st'. rewrite get_set_eq by done. done.
    + unfold st'. rewrite get_set_ne by done. done.
  - intros id. destruct (decide (id = self)) as [->|Hne].
    + by right.
    + left. unfold st'. by rewrite get_set_ne.
Qed.

(** Closing a list of scopes, given that closing each one of them works. *)
Lemma close_all_spec (close : nat -> State -> option (State * list Event))
    (parent n : nat) :
  (forall c st, tree_ok st -> length (scopes st) = n -> parent < c < n ->
      exists st' tr, close c st = Some (st', tr)
                     /\ closing st st' tr /\ closed_in st st' tr c
                     /\ forall e, e ∈ tr -> c <= event_scope e) ->
  forall cs st,
  tree_ok st -> length (scopes st) = n ->
  (forall c, c ∈ cs -> parent < c < n) ->
  exists st' tr, close_all close cs st = Some (st', tr)
                 /\ closing st st' tr
                 /\ (forall c, c ∈ cs -> closed_in st st' tr c)
                 /\ forall e, e ∈ tr -> parent < event_scope e.
Proof.
  intros Hclose. induction cs as [|c cs IH]; intros st Htree Hlen Hcs; simpl.
  - exists st, []. split; [done|]. split; [apply closing_refl|].
    split; intros x Hx; inversion Hx.
  - destruct (Hclose c st Htree Hlen (Hcs c (list_elem_of_here _ _)))
      as (st1 & tr1 & -> & Hcl1 & Hin1 & Hev1).
    destruct (IH st1) as (st2 & tr2 & -> & Hcl2 & Hin2 & Hev2).
    { by eapply closing_tree_ok. }
    { destruct Hcl1 as (-> & _). done. }
    { intros c' Hc'. apply Hcs. by apply list_elem_of_further. }
    exists st2, (tr1 ++ tr2). split; [done|].
    split; [by eapply closing_trans|]. split.
    + intros c' Hc'. apply elem_of_cons in Hc' as [->|Hc'].
      * by eapply closed_in_later.
      * eapply closed_in_earlier; [done|]. by apply Hin2.
    + intros e He. apply elem_of_app in He as [He|He].
      * pose proof (Hev1 e He). pose proof (Hcs c (list_elem_of_here _ _)). lia.
      * by apply Hev2.
Qed.

(** [Close] returns on every scope of a well-formed state, given fuel
    for the scopes allocated after it; it closes the scope, and changes
    nothing but destructors of scopes from it on. *)
Lemma Close_spec (fuel : nat) :
  forall self st,
  tree_ok st -> self < length (scopes st) ->
  length (scopes st) - self <= fuel ->
  exists st' tr, Close fuel self st = Some (st', tr)
                 /\ closing st st' tr /\ closed_in st st' tr self
                 /\ (forall e, e ∈ tr -> self <= event_scope e)
                 /\ forall c, c ∈ children (get st self) -> closed_in st st' tr c.
Proof.
  induction fuel as [|fuel IH]; intros self st Htree Hself Hfuel; [lia|].
  simpl.
  destruct (close_all_spec (Close fuel) self (length (scopes st))) with
    (cs := children (get st self)) (st := st)
    as (st1 & tr1 & -> & Hcl1 & Hin1 & Hev1); try done.
  { intros c st0 Htree0 Hlen0 Hc.
    destruct (IH c st0) as (st' & tr & H1 & H2 & H3 & H4 & _); [done|lia|lia|].
    by exists st', tr. }
  { intros c Hc. by apply Htree. }
  assert (Hself1 : self < length (scopes st1)).
  { destruct Hcl1 as (-> & _). done. }
  destruct (close_self st1 self Hself1) as [Hcl2 Hin2].
  eexists _, _. split; [reflexivity|].
  split; [by eapply closing_trans|]. split; [by eapply closed_in_earlier|].
  split.
  - intros e He. apply elem_of_app in He as [He|He].
    + pose proof (Hev1 e He). lia.
    + apply elem_of_cons in He as [->|He]; [done|].
      apply run_destructors_scope in He. lia.
  - intros c Hc. eapply closed_in_later; [by apply Hin1|done].
Qed.

Lemma wait_le (d : Destructor) : wait d <= 60.
Proof. unfold wait, timeout_seconds. destruct (d_seconds d); lia. Qed.

Lemma tree_ok_one_scope : tree_ok one_scope.
Proof. intros [|[|id]] c Hc; inversion Hc. Qed.

Lemma get_app_l (l : list Scope) (c : Scope) (arrs arrs' : list (list Any))
    (id : nat) :
  id < length l ->
  get {| scopes := l ++ [c]; arrays := arrs |} id
    = get {| scopes := l; arrays := arrs' |} id.
Proof. intros H. unfold get. simpl. by rewrite lookup_app_l. Qed.

Lemma get_app_new (l : list Scope) (c : Scope) (arrs : list (list Any)) :
  get {| scopes := l ++ [c]; arrays := arrs |} (length l) = c.
Proof. unfold get. simpl. by rewrite list_lookup_middle. Qed.

(** [Copy] records the new scope as the last child of its parent. *)
Lemma Copy_tree (growcap : nat -> nat -> nat) (st : State) (self : nat) :
  tree_ok st ->
  self < length (scopes st) ->
  tree_ok (fst (Copy growcap self st))
  /\ length (scopes (fst (Copy growcap self st))) = S (length (scopes st))
  /\ children (get (fst (Copy growcap self st)) self)
     = children (get st self) ++ [length (scopes st)]
  /\ forall id, id <> self ->
       children (get (fst (Copy growcap self st)) id) = children (get st id).
Proof.
  intros Htree Hself.
  destruct (Copy_unfold growcap st self) as (arrs & disp & _ & ->). simpl.
  set (parent := {| vars := vars (get st self);
                    dispatcher := dispatcher (get st self);
                    stack_depth := stack_depth (get st self);
                    children := children (get st self) ++ [length (scopes st)];
                    destructors := destructors (get st self) |}).
  set (l := <[self := parent]> (scopes st)).
  assert (Hlen : length l = length (scopes st)) by apply length_insert.
  assert (Hparent : forall c a, get {| scopes := l ++ [c]; arrays := a |} self = parent).
  { intros c a. rewrite (get_app_l _ _ _ a) by lia. unfold l.
    by apply get_insert_eq. }
  assert (Hothers : forall id, id <> self ->
            children (get {| scopes := l ++ [{| vars := vars (get st self);
                                                dispatcher := disp;
                                                stack_depth :=
                                                  wrap_int (stack_depth (get st self) + 1);
                                                children := [];
                                                destructors :=
                                                  {| fn := []; is_destroyed := false |} |}];
                             arrays := arrs |} id)
            = children (get st id)).
  { intros id Hne. destruct (decide (id < length l)) as [Hlt|Hge].
    - rewrite (get_app_l _ _ _ arrs) by done. unfold l.
      rewrite (get_insert_ne _ _ (arrays st)) by done. by destruct st.
    - apply Nat.nlt_ge in Hge.
      rewrite (get_out_of_range st id) by (rewrite <- Hlen; exact Hge).
      destruct (decide (id = length l)) as [->|Hne'].
      + by rewrite get_app_new.
      + rewrite get_out_of_range; [done|].
        simpl. rewrite length_app. simpl. clear -Hge Hne'. lia. }
  split; [|split; [|split; [|exact Hothers]]].
  - intros id c Hc. simpl. rewrite length_app, Hlen. simpl.
    destruct (decide (id = self)) as [->|Hne].
    + rewrite Hparent in Hc. simpl in Hc. apply elem_of_app in Hc as [Hc|Hc].
      * specialize (Htree _ _ Hc). lia.
      * apply list_elem_of_singleton in Hc. lia.
    + rewrite Hothers in Hc by done. specialize (Htree _ _ Hc). lia.
  - rewrite length_app, Hlen. simpl. lia.
  - by rewrite Hparent.
Qed.

(** [NewScope] leaves the children of every scope as they were. *)
Lemma NewScope_tree (growcap : nat -> nat -> nat) (st : State) (self : nat) :
  tree_ok st ->
  tree_ok (fst (NewScope growcap self st))
  /\ snd (NewScope growcap self st) = length (scopes st)
  /\ length (scopes (fst (NewScope growcap self st))) = S (length (scopes st))
  /\ forall id,
       children (get (fst (NewScope growcap self st)) id) = children (get st id).
Proof.
  intros Htree. unfold NewScope.
  destruct (copy_dispatchers growcap protocols (dispatcher (get st self))
              (arrays st) (fun _ => nil_slice)) as [arrs disp]. simpl.
  assert (Hold : forall id c a, id < length (scopes st) ->
            get {| scopes := scopes st ++ [c]; arrays := a |} id = get st id).
  { intros id c a Hid. rewrite (get_app_l _ _ _ (arrays st)) by done. by destruct st. }
  assert (Hall : forall id c a,
            children c = [] ->
            children (get {| scopes := scopes st ++ [c]; arrays := a |} id)
            = children (get st id)).
  { intros id c a Hc. destruct (decide (id < length (scopes st))) as [Hlt|Hge].
    - by rewrite Hold.
    - rewrite (get_out_of_range st id) by lia.
      destruct (decide (id = length (scopes st))) as [->|Hne].
      + by rewrite get_app_new.
      + by rewrite get_out_of_range by (simpl; rewrite length_app; simpl; lia). }
  split; [|split; [done|split]].
  - intros id c Hc. simpl. rewrite length_app. simpl.
    rewrite Hall in Hc by done. specialize (Htree _ _ Hc). lia.
  - rewrite length_app. simpl. lia.
  - intros id. by apply Hall.
Qed.

(** More fuel does not change what [Close] returns. *)
Lemma close_all_mono (close close' : nat -> State -> option (State * list Event)) :
  (forall c st r, close c st = Some r -> close' c st = Some r) ->
  forall cs st r,
  close_all close cs st = Some r -> close_all close' cs st = Some r.
Proof.
  intros Hmono. induction cs as [|c cs IH]; intros st r; simpl; [done|].
  destruct (close c st) as [[st1 tr1]|] eqn:Hc; [|done].
  rewrite (Hmono _ _ _ Hc).
  destruct (close_all close cs st1) as [[st2 tr2]|] eqn:Hcs; [|done].
  by rewrite (IH _ _ Hcs).
Qed.

Lemma Close_mono (fuel : nat) :
  forall fuel' self st r,
  fuel <= fuel' -> Close fuel self st = Some r -> Close fuel' self st = Some r.
Proof.
  induction fuel as [|fuel IH]; intros fuel' self st r Hle; simpl; [done|].
  destruct fuel' as [|fuel']; [lia|]. simpl.
  destruct (close_all (Close fuel) (children (get st self)) st)
    as [[st1 tr1]|] eqn:Hall; [|done].
  rewrite (close_all_mono (Close fuel) (Close fuel')) with (r := (st1, tr1)); try done.
  intros c st0 r0. apply IH. lia.
Qed.

(** [Close] changes no list of children, and leaves alone every scope
    other than its own that is the child of no scope. *)
Lemma close_all_frame (close : nat -> State -> option (State * list Event)) :
  (forall c st st' tr, close c st = Some (st', tr) ->
      (forall p, children (get st' p) = children (get st p))
      /\ forall id, id <> c -> (forall p, id ∉ children (get st p)) ->
            get st' id = get st id) ->
  forall cs st st' tr,
  close_all close cs st = Some (st', tr) ->
  (forall p, children (get st' p) = children (get st p))
  /\ forall id, id ∉ cs -> (forall p, id ∉ children (get st p)) ->
        get st' id = get st id.
Proof.
  intros Hclose. induction cs as [|c cs IH]; intros st st' tr Hall; simpl in Hall.
  - injection Hall as <- <-. by split.
  - destruct (close c st) as [[st1 tr1]|] eqn:Hc; [|done].
    destruct (close_all close cs st1) as [[st2 tr2]|] eqn:Hcs; [|done].
    injection Hall as <- <-.
    destruct (Hclose _ _ _ _ Hc) as [Hch1 Hout1].
    destruct (IH _ _ _ Hcs) as [Hch2 Hout2].
    split.
    + intros p. by rewrite Hch2, Hch1.
    + intros id Hid Hnone. apply not_elem_of_cons in Hid as [Hne Hid].
      rewrite Hout2; [by apply Hout1|done|].
      intros p. rewrite Hch1. apply Hnone.
Qed.

Lemma Close_frame (fuel : nat) :
  forall self st st' tr,
  Close fuel self st = Some (st', tr) ->
  (forall p, children (get st' p) = children (get st p))
  /\ forall id, id <> self -> (forall p, id ∉ children (get st p)) ->
        get st' id = get st id.
Proof.
  induction fuel as [|fuel IH]; intros self st st' tr Hclose; simpl in Hclose;
    [done|].
  destruct (close_all (Close fuel) (children (get st self)) st)
    as [[st1 tr1]|] eqn:Hall; [|done].
  injection Hclose as <- <-.
  destruct (close_all_frame (Close fuel) IH _ _ _ _ Hall) as [Hch1 Hout1].
  split.
  - intros p. rewrite <- Hch1. destruct (decide (p = self)) as [->|Hne].
    + destruct (decide (self < length (scopes st1))) as [Hlt|Hge].
      * by rewrite get_set_eq.
      * unfold set, get. simpl. by rewrite list_insert_ge by lia.
    + by rewrite get_set_ne.
  - intros id Hne Hnone. rewrite get_set_ne by done.
    apply Hout1; [apply Hnone|done].
Qed.

End CloseFacts.

(** ** The invariants along the calls of the interface *)

Section StepFacts.
Import Scopes Invariants.

Variable growcap : nat -> nat -> nat.
Variable implements : Any -> Protocol -> bool.

(** A state that shows the same dispatchers, children and arrays is
    as well formed. *)
Lemma wf_same_view (st st' : State) :
  (forall id, dispatcher (get st' id) = dispatcher (get st id)
              /\ children (get st' id) = children (get st id)) ->
  arrays st' = arrays st ->
  length (scopes st) <= length (scopes st') ->
  wf st -> wf st'.
Proof.
  intros Hview Harr Hlen [Htree [Hval Hsep]]. split; [|split].
  - intros id c Hc. destruct (Hview id) as [_ Hch]. rewrite Hch in Hc.
    specialize (Htree _ _ Hc). lia.
  - intros id p. destruct (Hview id) as [-> _]. rewrite Harr. apply Hval.
  - intros id1 id2 p1 p2 Hne.
    destruct (Hview id1) as [-> _]. destruct (Hview id2) as [-> _]. by apply Hsep.
Qed.

Lemma wf_set (st : State) (self : nat) (s : Scope) :
  dispatcher s = dispatcher (get st self) ->
  children s = children (get st self) ->
  wf st -> wf (set st self s).
Proof.
  intros Hd Hc. apply wf_same_view; [|done|simpl; by rewrite length_insert].
  intros id. destruct (decide (id = self)) as [->|Hne].
  - destruct (decide (self < length (scopes st))) as [Hlt|Hge].
    + by rewrite get_set_eq.
    + unfold set, get. simpl. rewrite list_insert_ge by lia. done.
  - by rewrite get_set_ne.
Qed.

Lemma NewScope_slices (st : State) (self : nat) :
  slices_ok st -> slices_ok (fst (NewScope growcap self st)).
Proof.
  intros Hok. unfold NewScope.
  destruct (copy_dispatchers growcap protocols (dispatcher (get st self))
              (arrays st) (fun _ => nil_slice)) as [arrs disp] eqn:Hcopy. simpl.
  apply (alloc_spec growcap st (scopes st) _ (dispatcher (get st self))
           (fun _ => nil_slice) disp); try done.
  intros p. apply Hok.
Qed.

Lemma AddDestructor_view (st : State) (self : nat) (d : Destructor) :
  wf st -> wf (fst (AddDestructor self d st)).
Proof.
  intros Hwf. unfold AddDestructor.
  destruct (is_destroyed (destructors (get st self))); simpl; [done|].
  by apply wf_set.
Qed.

Lemma closing_wf (st st' : State) (tr : list Event) :
  closing st st' tr -> wf st -> wf st'.
Proof.
  intros (Hlen & Harr & Hsame & _). apply wf_same_view; [|done|lia].
  intros id. destruct (Hsame id) as (_ & ? & _ & ?). done.
Qed.

Lemma factory_alloc_view (st : State) (id : nat) :
  get {| scopes := scopes st ++ [zero_scope]; arrays := arrays st |} id
    = get st id.
Proof.
  destruct (decide (id < length (scopes st))) as [Hlt|Hge].
  - rewrite (get_app_l _ _ _ (arrays st)) by done. by destruct st.
  - rewrite (get_out_of_range st id) by lia.
    destruct (decide (id = length (scopes st))) as [->|Hne].
    + by rewrite get_app_new.
    + apply get_out_of_range. simpl. rewrite length_app. simpl. lia.
Qed.

(** Every call keeps the state well formed; scopes are never freed and
    children never forgotten. *)
Lemma step_wf (st st' : State) :
  step growcap implements st st' ->
  wf st ->
  wf st'
  /\ length (scopes st) <= length (scopes st')
  /\ forall id c, c ∈ children (get st id) -> c ∈ children (get st' id).
Proof.
  intros Hstep Hwf. destruct Hstep as [st builtins|st self Hself|st self Hself
    |st self imps Hself|st self row Hself|st self d Hself|st self fuel st' tr Hself Hclose].
  - unfold vfilter_NewScope. simpl.
    set (st1 := {| scopes := scopes st ++ [zero_scope]; arrays := arrays st |}).
    assert (Hwf1 : wf st1).
    { revert Hwf. apply wf_same_view; [|done|].
      - intros id. unfold st1. by rewrite factory_alloc_view.
      - unfold st1. simpl. rewrite length_app. lia. }
    set (st2 := AppendVars (length (scopes st)) (NewDict_Set "NULL" VNull) st1).
    assert (Hwf2 : wf st2) by by apply wf_set.
    assert (Hlen2 : length (scopes st2) = S (length (scopes st))).
    { unfold st2, AppendVars, set, st1. simpl.
      rewrite length_insert, length_app. simpl. lia. }
    destruct (AddProtocolImpl_frame growcap implements (length (scopes st))
                builtins st2 (proj2 Hwf2) ltac:(lia)) as (Hok3 & Hlen3 & _ & Hu3).
    split; [split; [|done]|split; [lia|]].
    + intros id c Hc. rewrite Hlen3.
      destruct (Hu3 id) as (_ & _ & Hch & _). rewrite Hch in Hc.
      by apply (proj1 Hwf2).
    + intros id c Hc. destruct (Hu3 id) as (_ & _ & -> & _).
      unfold st2, AppendVars.
      destruct (decide (id = length (scopes st))) as [->|Hne].
      * rewrite get_out_of_range in Hc by lia. inversion Hc.
      * rewrite get_set_ne by done. unfold st1. by rewrite factory_alloc_view.
  - destruct (NewScope_tree growcap st self (proj1 Hwf)) as (Htree & _ & Hlen & Hch).
    split; [split; [done|by apply NewScope_slices, Hwf]|].
    split; [lia|]. intros id c Hc. by rewrite Hch.
  - destruct (Copy_tree growcap st self (proj1 Hwf) Hself) as (Htree & Hlen & Hch & Hoth).
    destruct (Copy_slices growcap st self (proj2 Hwf) Hself) as (Hok & _).
    split; [by split|]. split; [lia|].
    intros id c Hc. destruct (decide (id = self)) as [->|Hne].
    + rewrite Hch. apply elem_of_app. by left.
    + by rewrite Hoth.
  - destruct (AddProtocolImpl_frame growcap implements self imps st (proj2 Hwf) Hself)
      as (Hok & Hlen & _ & Hu).
    split; [split; [|done]|split; [lia|]].
    + intros id c Hc. rewrite Hlen.
      destruct (Hu id) as (_ & _ & Hch & _). rewrite Hch in Hc. by apply (proj1 Hwf).
    + intros id c Hc. by destruct (Hu id) as (_ & _ & -> & _).
  - split; [by apply wf_set|]. split.
    + unfold AppendVars, set. simpl. by rewrite length_insert.
    + intros id c Hc. unfold AppendVars.
      destruct (decide (id = self)) as [->|Hne].
      * by rewrite get_set_eq.
      * by rewrite get_set_ne.
  - split; [by apply AddDestructor_view|]. unfold AddDestructor.
    destruct (is_destroyed (destructors (get st self))); simpl; [split; done|].
    split; [by rewrite length_insert|].
    intros id c Hc. destruct (decide (id = self)) as [->|Hne].
    + by rewrite get_set_eq.
    + by rewrite get_set_ne.
  - assert (Hcl : closing st st' tr).
    { apply (Close_mono fuel (fuel + length (scopes st))) in Hclose; [|lia].
      destruct (Close_spec (fuel + length (scopes st)) self st (proj1 Hwf) Hself)
        as (st2 & tr2 & Hc2 & Hcl & _); [lia|].
      rewrite Hclose in Hc2. by injection Hc2 as <- <-. }
    split; [by eapply closing_wf|].
    destruct Hcl as (Hlen & _ & Hsame & _). split; [lia|].
    intros id c Hc. by destruct (Hsame id) as (_ & _ & _ & ->).
Qed.

(** The same along any number of calls. *)
Lemma steps_wf (st st' : State) :
  rtc (step growcap implements) st st' ->
  wf st ->
  wf st'
  /\ length (scopes st) <= length (scopes st')
  /\ forall id c, c ∈ children (get st id) -> c ∈ children (get st' id).
Proof.
  induction 1 as [st|st st1 st2 Hstep Hsteps IH]; intros Hwf.
  - split; [done|]. split; [lia|]. auto.
  - destruct (step_wf _ _ Hstep Hwf) as (Hwf1 & Hlen1 & Hch1).
    destruct (IH Hwf1) as (Hwf2 & Hlen2 & Hch2).
    split; [done|]. split; [lia|]. auto.
Qed.

Lemma wf_no_scope : wf no_scope.
Proof.
  assert (H : forall id, get no_scope id = zero_scope) by (intros [|id]; reflexivity).
  split; [|split].
  - intros id c Hc. rewrite H in Hc. inversion Hc.
  - intros id p. rewrite H. apply valid_nil_slice.
  - intros id1 id2 p1 p2 _. rewrite !H. by left.
Qed.

(** A call makes no scope that exists the child of another. *)
Lemma step_children (st st' : State) :
  step growcap implements st st' ->
  wf st ->
  forall id c, c ∈ children (get st' id) ->
               c ∈ children (get st id) \/ length (scopes st) <= c.
Proof.
  intros Hstep Hwf. destruct Hstep as [st builtins|st self Hself|st self Hself
    |st self imps Hself|st self row Hself|st self d Hself|st self fuel st' tr Hself Hclose];
    intros id c Hc.
  - unfold vfilter_NewScope in Hc. simpl in Hc.
    set (st1 := {| scopes := scopes st ++ [zero_scope]; arrays := arrays st |}) in *.
    set (st2 := AppendVars (length (scopes st)) (NewDict_Set "NULL" VNull) st1) in *.
    assert (Hwf1 : wf st1).
    { revert Hwf. apply wf_same_view; [|done|].
      - intros id'. unfold st1. by rewrite factory_alloc_view.
      - unfold st1. simpl. rewrite length_app. lia. }
    assert (Hwf2 : wf st2) by by apply wf_set.
    assert (Hlen2 : length (scopes st2) = S (length (scopes st))).
    { unfold st2, AppendVars, set, st1. simpl.
      rewrite length_insert, length_app. simpl. lia. }
    destruct (AddProtocolImpl_frame growcap implements (length (scopes st))
                builtins st2 (proj2 Hwf2) ltac:(lia)) as (_ & _ & _ & Hu3).
    destruct (Hu3 id) as (_ & _ & Hch & _). rewrite Hch in Hc.
    left. unfold st2, AppendVars in Hc.
    destruct (decide (id = length (scopes st))) as [->|Hne].
    + rewrite get_set_eq in Hc by (unfold st1; simpl; rewrite length_app; simpl; lia).
      simpl in Hc. unfold st1 in Hc. by rewrite factory_alloc_view in Hc.
    + rewrite get_set_ne in Hc by done. unfold st1 in Hc.
      by rewrite factory_alloc_view in Hc.
  - destruct (NewScope_tree growcap st self (proj1 Hwf)) as (_ & _ & _ & Hch).
    left. by rewrite Hch in Hc.
  - destruct (Copy_tree growcap st self (proj1 Hwf) Hself) as (_ & _ & Hch & Hoth).
    destruct (decide (id = self)) as [->|Hne].
    + rewrite Hch in Hc. apply elem_of_app in Hc as [Hc|Hc]; [by left|].
      apply list_elem_of_singleton in Hc. right. lia.
    + left. by rewrite Hoth in Hc.
  - destruct (AddProtocolImpl_frame growcap implements self imps st (proj2 Hwf) Hself)
      as (_ & _ & _ & Hu).
    destruct (Hu id) as (_ & _ & Hch & _). left. by rewrite Hch in Hc.
  - left. unfold AppendVars in Hc. destruct (decide (id = self)) as [->|Hne].
    + by rewrite get_set_eq in Hc.
    + by rewrite get_set_ne in Hc.
  - left. unfold AddDestructor in Hc.
    destruct (is_destroyed (destructors (get st self))); simpl in Hc; [done|].
    destruct (decide (id = self)) as [->|Hne].
    + by rewrite get_set_eq in Hc.
    + by rewrite get_set_ne in Hc.
  - left. destruct (Close_frame _ _ _ _ _ Hclose) as [Hch _]. by rewrite Hch in Hc.
Qed.

(** A scope that is the child of no scope never becomes one. *)
Lemma steps_outsider (st st' : State) (n : nat) :
  rtc (step growcap implements) st st' ->
  wf st ->
  n < length (scopes st) ->
  (forall p, n ∉ children (get st p)) ->
  forall p, n ∉ children (get st' p).
Proof.
  induction 1 as [st|st st1 st2 Hstep Hsteps IH]; intros Hwf Hn Hnone; [done|].
  destruct (step_wf _ _ Hstep Hwf) as (Hwf1 & Hlen1 & _).
  apply IH; [done|lia|].
  intros p Hin. destruct (step_children _ _ Hstep Hwf _ _ Hin) as [Hold|Hnew].
  - by apply (Hnone p).
  - lia.
Qed.

End StepFacts.

(** ** Copy and AddProtocolImpl *)

Section DispatcherClaims.
Import Scopes Invariants.

Lemma slices_ok_one_scope : slices_ok one_scope.
Proof.
  assert (H : forall id, dispatcher (get one_scope id) = fun _ => nil_slice).
  { intros [|[|id]]; reflexivity. }
  split.
  - intros id p. rewrite H. apply valid_nil_slice.
  - intros id1 id2 p1 p2 _. rewrite !H. by left.
Qed.

Lemma Copy_child (growcap : nat -> nat -> nat) (st : State) (self : nat) :
  snd (Copy growcap self st) = length (scopes st).
Proof. by destruct (Copy_unfold growcap st self) as (arrs & disp & _ & ->). Qed.

Lemma AddProtocolImpl_calls_frame (growcap : nat -> nat -> nat)
    (implements : Any -> Protocol -> bool) (self : nat)
    (calls : list (list Any)) :
  forall st,
  slices_ok st ->
  self < length (scopes st) ->
  forall id q, id <> self ->
    impls (AddProtocolImpl_calls growcap implements self calls st) id q
    = impls st id q.
Proof.
  induction calls as [|imps calls IH]; intros st Hok Hself id q Hid; simpl; [done|].
  destruct (AddProtocolImpl_frame growcap implements self imps st Hok Hself)
    as (Hok1 & Hlen1 & Hf1 & _).
  rewrite IH by (try done; lia). by apply Hf1.
Qed.


Lemma slices_ok_sample_parent : slices_ok sample_parent.
Proof.
  apply (AddProtocolImpl_frame sample_growcap sample_implements 0
           [VHost 0; VHost 10; VHost 11; VHost 0] one_scope).
  - apply slices_ok_one_scope.
  - vm_compute. lia.
Qed.


(** C8: [AddProtocolImpl] panics as soon as one of its arguments
    satisfies none of the eleven protocol interfaces; when every
    argument satisfies at least one, it returns, and each argument has
    been added to the list of the dispatcher it was routed to, a
    protocol it satisfies. *)
Theorem AddProtocolImpl_panics_or_routes (growcap : nat -> nat -> nat)
    (implements : Any -> Protocol -> bool) (st : State) (self : nat)
    (imps : list Any) :
  slices_ok st ->
  self < length (scopes st) ->
  ((exists imp, imp ∈ imps /\ forall p, implements imp p = false) ->
   exists st',
     AddProtocolImpl growcap implements self imps st
       = Panicked "Unsupported interface" st')
  /\ ((forall imp, imp ∈ imps -> exists p, implements imp p = true) ->
      exists st',
        AddProtocolImpl growcap implements self imps st = Returned st'
        /\ (forall q, impls st' self q
                      = impls st self q
                        ++ List.filter (routed_to implements q) imps)
        /\ (forall imp, imp ∈ imps ->
              exists p, route implements imp = Some p
                        /\ implements imp p = true)).
Proof.
  intros Hok Hself. split.
  - intros (imp & Hin & Hnone). apply AddProtocolImpl_panics.
    exists imp. split; [done|]. by apply route_None.
  - intros Hall.
    assert (Hrouted : forall imp, imp ∈ imps -> route implements imp <> None).
    { intros imp Hin Hnone. destruct (Hall imp Hin) as [p Hp].
      rewrite (proj1 (route_None implements imp) Hnone p) in Hp. discriminate. }
    destruct (AddProtocolImpl_returns growcap implements self imps st Hok Hself Hrouted)
      as (st' & Hret & Hlists).
    exists st'. split; [done|]. split; [done|].
    intros imp Hin. specialize (Hrouted imp Hin).
    destruct (route implements imp) as [p|] eqn:Hp; [|done].
    exists p. split; [done|]. by apply route_Some.
Qed.

Lemma AddProtocolImpl_panics_or_routes_witness :
  (exists st',
      AddProtocolImpl sample_growcap sample_implements 0
        [VHost 0; VHost 12; VHost 1] one_scope
      = Panicked "Unsupported interface" st')
  /\ (exists st',
        AddProtocolImpl sample_growcap sample_implements 0
          [VHost 0; VHost 10; VHost 11] one_scope
        = Returned st'
        /\ impls st' 0 PBool = [VHost 0; VHost 11]
        /\ impls st' 0 PIterate = [VHost 10]).
Proof.
  split.
  - apply (AddProtocolImpl_panics_or_routes sample_growcap sample_implements
             one_scope 0 [VHost 0; VHost 12; VHost 1] slices_ok_one_scope).
    + simpl. lia.
    + exists (VHost 12). split.
      * apply list_elem_of_In. simpl. tauto.
      * intros p. destruct p; reflexivity.
  - destruct (AddProtocolImpl_panics_or_routes sample_growcap sample_implements
                one_scope 0 [VHost 0; VHost 10; VHost 11] slices_ok_one_scope)
      as [_ Hroutes].
    + simpl. lia.
    + destruct Hroutes as (st' & Hret & Hlists & _).
      * intros imp Hin. apply list_elem_of_In in Hin. simpl in Hin.
        destruct Hin as [<-|[<-|[<-|[]]]];
          [exists PBool|exists PIterate|exists PBool]; reflexivity.
      * exists st'. split; [exact Hret|].
        split; [exact (Hlists PBool)|exact (Hlists PIterate)].
Defined.

End DispatcherClaims.

Section CloseClaims.
Import Scopes Invariants.


Lemma tree_ok_sample_family : tree_ok sample_family.
Proof.
  intros [|[|[|id]]] c Hc; vm_compute in Hc.
  - apply list_elem_of_singleton in Hc. subst c. vm_compute. lia.
  - inversion Hc.
  - inversion Hc.
  - inversion Hc.
Qed.



(** Every state built by calls of the interface is well formed. *)
Lemma reachable_wf (growcap : nat -> nat -> nat)
    (implements : Any -> Protocol -> bool) (st : State) :
  rtc (step growcap implements) no_scope st -> wf st.
Proof. intros H. by apply (steps_wf growcap implements no_scope st H wf_no_scope). Qed.

(** C9, as amended: a scope created from P by [Copy] is a child of P,
    and whatever calls are made afterwards, [P.Close()] returns having
    closed it, as it closes every child of P; the scope that [NewScope]
    returns is the child of no scope, and whatever calls are made
    afterwards, [P.Close()] leaves it as it is. *)
Theorem Copy_child_is_closed (growcap : nat -> nat -> nat)
    (implements : Any -> Protocol -> bool) (st : State) (P : nat) :
  wf st ->
  P < length (scopes st) ->
  snd (Copy growcap P st) ∈ children (get (fst (Copy growcap P st)) P)
  /\ (forall st2 fuel,
        rtc (step growcap implements) (fst (Copy growcap P st)) st2 ->
        length (scopes st2) - P <= fuel ->
        exists st3 tr,
          Close fuel P st2 = Some (st3, tr)
          /\ closed_in st2 st3 tr P
          /\ forall c, c ∈ children (get st2 P) -> closed_in st2 st3 tr c)
  /\ (forall st2,
        rtc (step growcap implements) (fst (Copy growcap P st)) st2 ->
        snd (Copy growcap P st) ∈ children (get st2 P))
  /\ (forall id,
        children (get (fst (NewScope growcap P st)) id) = children (get st id)
        /\ snd (NewScope growcap P st)
             ∉ children (get (fst (NewScope growcap P st)) id))
  /\ (forall st2 fuel st3 tr,
        rtc (step growcap implements) (fst (NewScope growcap P st)) st2 ->
        Close fuel P st2 = Some (st3, tr) ->
        get st3 (snd (NewScope growcap P st))
        = get st2 (snd (NewScope growcap P st))).
Proof.
  intros Hwf HP.
  destruct (Copy_tree growcap st P (proj1 Hwf) HP) as (Htree1 & Hlen1 & Hch & _).
  destruct (Copy_slices growcap st P (proj2 Hwf) HP) as (Hok1 & _).
  assert (Hchild : snd (Copy growcap P st)
                     ∈ children (get (fst (Copy growcap P st)) P)).
  { rewrite Copy_child, Hch. apply elem_of_app. right. apply list_elem_of_here. }
  destruct (NewScope_tree growcap st P (proj1 Hwf)) as (Htree' & Hnew & Hlen' & Hsame).
  assert (Hnone : forall id, snd (NewScope growcap P st)
                               ∉ children (get (fst (NewScope growcap P st)) id)).
  { intros id Hin. rewrite Hsame, Hnew in Hin. apply (proj1 Hwf) in Hin. lia. }
  split; [done|]. split; [|split; [|split]].
  - intros st2 fuel Hsteps Hfuel.
    destruct (steps_wf growcap implements _ _ Hsteps (conj Htree1 Hok1))
      as (Hwf2 & Hlen2 & _).
    destruct (Close_spec fuel P st2 (proj1 Hwf2) ltac:(lia) Hfuel)
      as (st3 & tr & Hclose & _ & HinP & _ & Hin).
    by exists st3, tr.
  - intros st2 Hsteps.
    destruct (steps_wf growcap implements _ _ Hsteps (conj Htree1 Hok1))
      as (_ & _ & Hmono).
    by apply Hmono.
  - intros id. by split.
  - intros st2 fuel st3 tr Hsteps Hclose.
    assert (Hwf' : wf (fst (NewScope growcap P st))).
    { by apply (step_wf growcap implements st _ (step_NewScope _ _ st P HP)). }
    destruct (Close_frame _ _ _ _ _ Hclose) as [_ Hout]. apply Hout.
    + rewrite Hnew. lia.
    + apply (steps_outsider growcap implements _ _ _ Hsteps Hwf'); [|done].
      rewrite Hnew, Hlen'. lia.
Qed.

Lemma wf_one_scope : wf one_scope.
Proof.
  apply (reachable_wf sample_growcap sample_implements).
  apply rtc_once. apply (step_factory _ _ no_scope []).
Qed.

Lemma Copy_child_is_closed_witness :
  snd (Copy sample_growcap 0 one_scope)
    ∈ children (get (fst (Copy sample_growcap 0 one_scope)) 0)
  /\ exists st3 tr,
      Close 2 0 sample_family = Some (st3, tr)
      /\ closed_in sample_family st3 tr 1.
Proof.
  destruct (Copy_child_is_closed sample_growcap sample_implements one_scope 0
              wf_one_scope)
    as (Hchild & Hclose & Hstill & _ & _).
  - vm_compute. lia.
  - split; [exact Hchild|].
    assert (Hsteps : rtc (step sample_growcap sample_implements)
                       (fst (Copy sample_growcap 0 one_scope)) sample_family).
    { eapply rtc_l; [apply (step_AddDestructor _ _ _ 0 quick); vm_compute; lia|].
      apply rtc_once.
      apply (step_AddDestructor _ _ _ 1 stuck). vm_compute. lia. }
    destruct (Hclose sample_family 2 Hsteps) as (st3 & tr & Hc & _ & Hin).
    + vm_compute. lia.
    + exists st3, tr. split; [exact Hc|]. apply Hin. exact (Hstill _ Hsteps).
Defined.

(** C9, as stated, fails for [NewScope]: the scope it returns is not
    among the children of P, and closing P leaves it open. *)
Lemma NewScope_is_not_a_child :
  ~ (forall (growcap : nat -> nat -> nat) (st : State) (P : nat),
        tree_ok st -> P < length (scopes st) ->
        snd (NewScope growcap P st)
          ∈ children (get (fst (NewScope growcap P st)) P))
  /\ exists st2 tr,
      Close 2 0 sample_siblings = Some (st2, tr)
      /\ is_destroyed (destructors (get st2 1)) = false
      /\ fn (destructors (get st2 1)) = [stuck]
      /\ tr = [Destroyed 0; Started 0 quick 5].
Proof.
  split.
  - intros claim.
    specialize (claim sample_growcap one_scope 0 tree_ok_one_scope).
    assert (H : 0 < length (scopes one_scope)) by (simpl; lia).
    specialize (claim H). vm_compute in claim. inversion claim.
  - destruct (Close 2 0 sample_siblings) as [[st2 tr]|] eqn:Hclose;
      [|vm_compute in Hclose; discriminate Hclose].
    exists st2, tr. split; [reflexivity|].
    vm_compute in Hclose. injection Hclose as <- <-.
    repeat split; reflexivity.
Qed.

End CloseClaims.

(** * Further properties *)

(** ** The type switch of AddProtocolImpl *)

Section RoutingFacts.
Import Scopes Invariants.

Variable growcap : nat -> nat -> nat.
Variable implements : Any -> Protocol -> bool.

Lemma find_first {A : Type} (f : A -> bool) (l : list A) (x : A) :
  List.find f l = Some x ->
  exists l1 l2, l = l1 ++ x :: l2 /\ f x = true /\ forall y, y ∈ l1 -> f y = false.
Proof.
  induction l as [|a l IH]; simpl; [done|].
  destruct (f a) eqn:Ha.
  - intros [= ->]. exists [], l. split; [done|]. split; [done|].
    intros y Hy. inversion Hy.
  - intros H. destruct (IH H) as (l1 & l2 & -> & Hx & Hl1).
    exists (a :: l1), l2. split; [done|]. split; [done|].
    intros y Hy. apply elem_of_cons in Hy as [->|Hy]; auto.
Qed.

Lemma AddProtocolImpl_app (self : nat) (l1 l2 : list Any) :
  forall st,
  AddProtocolImpl growcap implements self (l1 ++ l2) st =
    match AddProtocolImpl growcap implements self l1 st with
    | Returned st1 => AddProtocolImpl growcap implements self l2 st1
    | Panicked msg st1 => Panicked msg st1
    end.
Proof.
  induction l1 as [|imp l1 IH]; intros st; simpl; [done|].
  destruct (route implements imp); [apply IH|done].
Qed.

(** AddProtocolImpl does not undo what it did before it panics: the
    arguments before the first unsupported one stay registered, and none
    of those after it is. *)
Theorem AddProtocolImpl_panic_keeps_earlier (st : State) (self : nat)
    (before after : list Any) (bad : Any) :
  slices_ok st ->
  self < length (scopes st) ->
  (forall imp, imp ∈ before -> exists p, implements imp p = true) ->
  (forall p, implements bad p = false) ->
  exists st',
    AddProtocolImpl growcap implements self (before ++ bad :: after) st
      = Panicked "Unsupported interface" st'
    /\ AddProtocolImpl growcap implements self before st = Returned st'
    /\ forall q, impls st' self q
                 = impls st self q
                   ++ List.filter (routed_to implements q) before.
Proof.
  intros Hok Hself Hbefore Hbad.
  destruct (AddProtocolImpl_returns growcap implements self before st Hok Hself)
    as (st' & Hret & Hlists).
  { intros imp Hin Hnone. destruct (Hbefore imp Hin) as [p Hp].
    rewrite (proj1 (route_None implements imp) Hnone p) in Hp. discriminate. }
  exists st'. split; [|by split].
  rewrite AddProtocolImpl_app, Hret. simpl.
  by rewrite (proj2 (route_None implements bad) Hbad).
Qed.

(** A value that satisfies several protocol interfaces is registered
    once only, with the first of them in the order of the type switch;
    the lists of all other protocols stay as they were. *)
Theorem AddProtocolImpl_first_case_only (st : State) (self : nat) (imp : Any)
    (p : Protocol) :
  slices_ok st ->
  self < length (scopes st) ->
  route implements imp = Some p ->
  (exists earlier later,
      protocols = earlier ++ p :: later
      /\ implements imp p = true
      /\ forall q, q ∈ earlier -> implements imp q = false)
  /\ exists st',
      AddProtocolImpl growcap implements self [imp] st = Returned st'
      /\ impls st' self p = impls st self p ++ [imp]
      /\ forall q, q <> p -> impls st' self q = impls st self q.
Proof.
  intros Hok Hself Hroute. split.
  - by apply find_first.
  - simpl. rewrite Hroute.
    destruct (AddImpl_spec growcap st self p imp Hok Hself)
      as (_ & _ & Hp & Hothers & _).
    eexists. split; [reflexivity|]. split; [done|].
    intros q Hq. apply Hothers. by right.
Qed.

End RoutingFacts.

Section RoutingExamples.
Import Scopes Invariants.

Lemma AddProtocolImpl_panic_keeps_earlier_witness :
  exists st',
    AddProtocolImpl sample_growcap sample_implements 0
      ([VHost 0; VHost 10] ++ VHost 12 :: [VHost 1]) one_scope
    = Panicked "Unsupported interface" st'
    /\ impls st' 0 PBool = [VHost 0]
    /\ impls st' 0 PIterate = [VHost 10]
    /\ impls st' 0 PEq = [].
Proof.
  destruct (AddProtocolImpl_panic_keeps_earlier sample_growcap sample_implements
              one_scope 0 [VHost 0; VHost 10] [VHost 1] (VHost 12)
              slices_ok_one_scope)
    as (st' & Hpanic & _ & Hlists).
  - vm_compute. lia.
  - intros imp Hin. apply list_elem_of_In in Hin. simpl in Hin.
    destruct Hin as [<-|[<-|[]]]; [exists PBool|exists PIterate]; reflexivity.
  - intros p. destruct p; reflexivity.
  - exists st'. split; [exact Hpanic|].
    split; [exact (Hlists PBool)|].
    split; [exact (Hlists PIterate)|exact (Hlists PEq)].
Defined.

Lemma AddProtocolImpl_first_case_only_witness :
  exists st',
    AddProtocolImpl sample_growcap sample_implements 0 [VHost 11] one_scope
    = Returned st'
    /\ impls st' 0 PBool = [VHost 11]
    /\ impls st' 0 PIterate = [].
Proof.
  destruct (AddProtocolImpl_first_case_only sample_growcap sample_implements
              one_scope 0 (VHost 11) PBool slices_ok_one_scope)
    as (_ & st' & Hret & Hbool & Hothers).
  - vm_compute. lia.
  - reflexivity.
  - exists st'. split; [exact Hret|]. split; [exact Hbool|].
    apply (Hothers PIterate). discriminate.
Defined.

End RoutingExamples.

(** ** Dispatchers of a new scope *)

Section NewScopeFacts.
Import Scopes Invariants.

Variable growcap : nat -> nat -> nat.
Variable implements : Any -> Protocol -> bool.

Lemma NewScope_impls (st : State) (self : nat) :
  slices_ok st ->
  slices_ok (fst (NewScope growcap self st))
  /\ snd (NewScope growcap self st) = length (scopes st)
  /\ length (scopes (fst (NewScope growcap self st))) = S (length (scopes st))
  /\ (forall p, impls (fst (NewScope growcap self st)) (length (scopes st)) p
               = impls st self p)
  /\ (forall id p, id <> length (scopes st) ->
        impls (fst (NewScope growcap self st)) id p = impls st id p).
Proof.
  intros Hok. unfold NewScope.
  destruct (copy_dispatchers growcap protocols (dispatcher (get st self))
              (arrays st) (fun _ => nil_slice)) as [arrs disp] eqn:Hcopy. simpl.
  destruct (alloc_spec growcap st (scopes st)
              {| vars := [NewDict_Set "NULL" VNull];
                 dispatcher := disp;
                 stack_depth := 0;
                 children := [];
                 destructors := {| fn := []; is_destroyed := false |} |}
              (dispatcher (get st self)) (fun _ => nil_slice) disp arrs)
    as (H1 & H2 & H3); try done.
  { intros p. apply Hok. }
  split; [done|]. split; [done|]. split; [|by split].
  rewrite length_app. simpl. lia.
Qed.



End NewScopeFacts.

Section NewScopeExamples.
Import Scopes Invariants.



End NewScopeExamples.

(** ** Closing twice, and destructors added late *)

Section ClosedFacts.
Import Scopes Invariants ScopeOps.

Lemma destructors_closed (x : _destructors) :
  is_destroyed x = true -> fn x = [] -> x = {| fn := []; is_destroyed := true |}.
Proof. destruct x as [f d]. simpl. by intros -> ->. Qed.

(** Once closed, closed for good. *)
Lemma closed_tree_closing (st st' : State) (tr : list Event) (id : nat) :
  closing st st' tr -> closed_tree st id -> closed_tree st' id.
Proof.
  intros Hcl Hclosed. induction Hclosed as [id Hdes Hch IH].
  destruct Hcl as (_ & _ & Hsame & Hchange). constructor.
  - destruct (Hchange id) as [->|(Hd & Hf & _)]; [done|].
    by apply destructors_closed.
  - intros c Hc. apply IH. destruct (Hsame id) as (_ & _ & _ & Heq).
    by rewrite Heq in Hc.
Qed.

Lemma set_get (st : State) (id : nat) (s : Scope) :
  s = get st id -> set st id s = st.
Proof.
  intros ->. unfold set, get. destruct st as [l a]. simpl. f_equal.
  destruct (l !! id) as [x|] eqn:E; simpl.
  - by apply list_insert_id.
  - apply list_insert_ge. by apply lookup_ge_None.
Qed.

(** On a closed scope [Close] changes nothing and starts nothing. *)
Lemma closed_tree_Close (st : State) (id : nat) :
  closed_tree st id ->
  forall fuel st' tr,
  Close fuel id st = Some (st', tr) ->
  st' = st /\ forall e, e ∈ tr -> is_Destroyed e.
Proof.
  induction 1 as [id Hdes Hch IH]. intros [|fuel] st' tr Hclose; [done|].
  simpl in Hclose.
  assert (Hall : forall cs, (forall c, c ∈ cs -> c ∈ children (get st id)) ->
            forall st1 tr1, close_all (Close fuel) cs st = Some (st1, tr1) ->
            st1 = st /\ forall e, e ∈ tr1 -> is_Destroyed e).
  { induction cs as [|c cs IHcs]; intros Hcs st1 tr1 H1; simpl in H1.
    - injection H1 as <- <-. split; [done|]. intros e He. inversion He.
    - destruct (Close fuel c st) as [[sa ta]|] eqn:Hc; [|done].
      destruct (IH c (Hcs c (list_elem_of_here _ _)) fuel sa ta Hc) as [-> Hta].
      destruct (close_all (Close fuel) cs st) as [[sb tb]|] eqn:Hrest; [|done].
      injection H1 as <- <-.
      destruct (IHcs (fun c' Hc' => Hcs c' (list_elem_of_further _ _ _ Hc'))
                  sb tb eq_refl) as [-> Htb].
      split; [done|]. intros e He. apply elem_of_app in He as [He|He]; auto. }
  destruct (close_all (Close fuel) (children (get st id)) st)
    as [[st1 tr1]|] eqn:H1; [|done].
  destruct (Hall _ (fun c Hc => Hc) st1 tr1 H1) as [-> Htr1].
  injection Hclose as <- <-. split.
  - apply set_get. destruct (get st id) as [v dsp sd ch des] eqn:E.
    simpl in *. by rewrite Hdes.
  - intros e He. apply elem_of_app in He as [He|He]; [by apply Htr1|].
    rewrite Hdes in He. simpl in He. apply list_elem_of_singleton in He.
    by subst e.
Qed.

Lemma close_all_closed_tree (close : nat -> State -> option (State * list Event))
    (parent n : nat) :
  (forall c st, tree_ok st -> length (scopes st) = n -> parent < c < n ->
      exists st' tr, close c st = Some (st', tr)
                     /\ closing st st' tr /\ closed_tree st' c) ->
  forall cs st,
  tree_ok st -> length (scopes st) = n ->
  (forall c, c ∈ cs -> parent < c < n) ->
  exists st' tr, close_all close cs st = Some (st', tr)
                 /\ closing st st' tr
                 /\ forall c, c ∈ cs -> closed_tree st' c.
Proof.
  intros Hclose. induction cs as [|c cs IH]; intros st Htree Hlen Hcs; simpl.
  - exists st, []. split; [done|]. split; [apply closing_refl|].
    intros x Hx. inversion Hx.
  - destruct (Hclose c st Htree Hlen (Hcs c (list_elem_of_here _ _)))
      as (st1 & tr1 & -> & Hcl1 & Hin1).
    destruct (IH st1) as (st2 & tr2 & -> & Hcl2 & Hin2).
    { by eapply closing_tree_ok. }
    { destruct Hcl1 as (-> & _). done. }
    { intros c' Hc'. apply Hcs. by apply list_elem_of_further. }
    exists st2, (tr1 ++ tr2). split; [done|].
    split; [by eapply closing_trans|].
    intros c' Hc'. apply elem_of_cons in Hc' as [->|Hc'].
    + by eapply closed_tree_closing.
    + by apply Hin2.
Qed.

(** [Close] leaves the scope closed, with all that is below it. *)
Lemma Close_closed_tree (fuel : nat) :
  forall self st,
  tree_ok st -> self < length (scopes st) ->
  length (scopes st) - self <= fuel ->
  exists st' tr, Close fuel self st = Some (st', tr)
                 /\ closing st st' tr /\ closed_tree st' self.
Proof.
  induction fuel as [|fuel IH]; intros self st Htree Hself Hfuel; [lia|].
  simpl.
  destruct (close_all_closed_tree (Close fuel) self (length (scopes st))) with
    (cs := children (get st self)) (st := st)
    as (st1 & tr1 & -> & Hcl1 & Hin1); try done.
  { intros c st0 Htree0 Hlen0 Hc. apply IH; [done|lia|lia]. }
  { intros c Hc. by apply Htree. }
  assert (Hself1 : self < length (scopes st1)).
  { destruct Hcl1 as (-> & _). done. }
  destruct (close_self st1 self Hself1) as [Hcl2 Hin2].
  eexists _, _. split; [reflexivity|].
  split; [by eapply closing_trans|].
  constructor.
  - rewrite get_set_eq by done. reflexivity.
  - intros c Hc. rewrite get_set_eq in Hc by done. simpl in Hc.
    eapply closed_tree_closing; [exact Hcl2|]. apply Hin1.
    destruct Hcl1 as (_ & _ & Hsame & _).
    destruct (Hsame self) as (_ & _ & _ & Heq). by rewrite Heq in Hc.
Qed.

(** Closing a scope a second time changes nothing and starts no
    destructor: every destructor is run by the first [Close] only. *)
Theorem Close_twice (st : State) (self fuel : nat) :
  tree_ok st ->
  self < length (scopes st) ->
  length (scopes st) - self <= fuel ->
  exists st' tr tr2,
    Close fuel self st = Some (st', tr)
    /\ Close fuel self st' = Some (st', tr2)
    /\ (forall e, e ∈ tr2 -> is_Destroyed e)
    /\ forall fuel2 st2 tr3,
         Close fuel2 self st' = Some (st2, tr3) ->
         st2 = st' /\ forall e, e ∈ tr3 -> is_Destroyed e.
Proof.
  intros Htree Hself Hfuel.
  destruct (Close_closed_tree fuel self st Htree Hself Hfuel)
    as (st' & tr & Hclose & Hcl & Hclosed).
  pose proof Hcl as (Hlen & _).
  destruct (Close_closed_tree fuel self st') as (st2 & tr2 & Hclose2 & _).
  { by eapply closing_tree_ok. }
  { lia. }
  { lia. }
  destruct (closed_tree_Close st' self Hclosed _ _ _ Hclose2) as [-> Htr2].
  exists st', tr, tr2. split; [done|]. split; [done|]. split; [done|].
  intros fuel2 st3 tr3 H3. by apply (closed_tree_Close st' self Hclosed _ _ _ H3).
Qed.

(** After [Close], a destructor added to the scope or to one of its
    children is called at once and is not kept. *)
Theorem AddDestructor_after_Close (st : State) (self fuel : nat)
    (st' : State) (tr : list Event) (id : nat) (d : Destructor) :
  tree_ok st ->
  self < length (scopes st) ->
  Close fuel self st = Some (st', tr) ->
  id = self \/ id ∈ children (get st self) ->
  AddDestructor id d st' = (st', [Called id d]).
Proof.
  intros Htree Hself Hclose Hid.
  apply (Close_mono fuel (fuel + length (scopes st))) in Hclose; [|lia].
  destruct (Close_spec (fuel + length (scopes st)) self st Htree Hself)
    as (st2 & tr2 & Hc2 & _ & HinP & _ & Hin); [lia|].
  rewrite Hclose in Hc2. injection Hc2 as <- <-.
  assert (Hd : is_destroyed (destructors (get st' id)) = true).
  { destruct Hid as [->|Hid]; [apply HinP|by apply Hin]. }
  unfold AddDestructor. by rewrite Hd.
Qed.

(** [Close] touches nothing but destructors: every scope keeps its
    variable frames, its stack depth, its children and what its
    dispatcher lists show, and no scope allocated before the closed one
    is affected at all. *)
Theorem Close_keeps_the_rest (st : State) (self fuel : nat)
    (st' : State) (tr : list Event) :
  tree_ok st ->
  self < length (scopes st) ->
  Close fuel self st = Some (st', tr) ->
  length (scopes st') = length (scopes st)
  /\ (forall id, vars (get st' id) = vars (get st id)
                 /\ stack_depth (get st' id) = stack_depth (get st id)
                 /\ children (get st' id) = children (get st id)
                 /\ forall p, impls st' id p = impls st id p)
  /\ (forall id, id < self -> get st' id = get st id)
  /\ forall e, e ∈ tr -> self <= event_scope e.
Proof.
  intros Htree Hself Hclose.
  apply (Close_mono fuel (fuel + length (scopes st))) in Hclose; [|lia].
  destruct (Close_spec (fuel + length (scopes st)) self st Htree Hself)
    as (st2 & tr2 & Hc2 & Hcl & _ & Hev & _); [lia|].
  rewrite Hclose in Hc2. injection Hc2 as <- <-.
  destruct Hcl as (Hlen & Harr & Hsame & Hdes).
  split; [done|]. split; [|split; [|done]].
  - intros id. destruct (Hsame id) as (Hv & Hd & Hs & Hc).
    split; [done|]. split; [done|]. split; [done|].
    intros p. unfold impls. by rewrite Hd, Harr.
  - intros id Hid. destruct (Hsame id) as (Hv & Hd & Hs & Hc).
    assert (Hx : destructors (get st' id) = destructors (get st id)).
    { destruct (Hdes id) as [H|(_ & _ & Hin & _)]; [done|].
      apply Hev in Hin. simpl in Hin. lia. }
    destruct (get st' id), (get st id). simpl in *. congruence.
Qed.

End ClosedFacts.

Section ClosedExamples.
Import Scopes Invariants ScopeOps.

Lemma Close_twice_witness :
  exists st' tr2,
    Close 2 0 sample_family
    = Some (st', [Destroyed 1; Started 1 stuck 60; Destroyed 0; Started 0 quick 5])
    /\ Close 2 0 st' = Some (st', tr2)
    /\ forall e, e ∈ tr2 -> is_Destroyed e.
Proof.
  destruct (Close_twice sample_family 0 2 tree_ok_sample_family)
    as (st' & tr & tr2 & H1 & H2 & H3 & _).
  - vm_compute. lia.
  - vm_compute. lia.
  - exists st', tr2. split; [|by split].
    rewrite H1. f_equal. f_equal.
    assert (Htr : option_map snd (Close 2 0 sample_family)
                  = Some [Destroyed 1; Started 1 stuck 60;
                          Destroyed 0; Started 0 quick 5])
      by (vm_compute; reflexivity).
    rewrite H1 in Htr. simpl in Htr. by injection Htr.
Defined.

Lemma AddDestructor_after_Close_witness :
  exists st' tr,
    Close 2 0 sample_family = Some (st', tr)
    /\ AddDestructor 1 quick st' = (st', [Called 1 quick]).
Proof.
  destruct (Close 2 0 sample_family) as [[st' tr]|] eqn:Hclose;
    [|vm_compute in Hclose; discriminate Hclose].
  exists st', tr. split; [reflexivity|].
  apply (AddDestructor_after_Close sample_family 0 2 st' tr 1 quick
           tree_ok_sample_family).
  - vm_compute. lia.
  - exact Hclose.
  - right. vm_compute. apply list_elem_of_here.
Defined.

Lemma Close_keeps_the_rest_witness :
  exists st' tr,
    Close 2 1 sample_family = Some (st', tr)
    /\ get st' 0 = get sample_family 0
    /\ vars (get st' 1) = vars (get sample_family 1).
Proof.
  destruct (Close 2 1 sample_family) as [[st' tr]|] eqn:Hclose;
    [|vm_compute in Hclose; discriminate Hclose].
  exists st', tr. split; [reflexivity|].
  destruct (Close_keeps_the_rest sample_family 1 2 st' tr tree_ok_sample_family)
    as (_ & Hsame & Hbefore & _).
  - vm_compute. lia.
  - exact Hclose.
  - split; [apply Hbefore; lia|apply Hsame].
Defined.

End ClosedExamples.

Section TerminationFacts.
Import Scopes Invariants ScopeOps.

(** On every state built through the scope's interface, [Close] returns
    on every scope; it leaves the scope and all that is below it closed,
    and the bound on the depth of the recursion does not matter once it
    is the number of scopes. *)
Theorem Close_returns (growcap : nat -> nat -> nat)
    (implements : Any -> Protocol -> bool) (st : State) (self : nat) :
  rtc (step growcap implements) no_scope st ->
  self < length (scopes st) ->
  exists st' tr,
    Close (length (scopes st)) self st = Some (st', tr)
    /\ closed_tree st' self
    /\ forall fuel, length (scopes st) <= fuel ->
                    Close fuel self st = Some (st', tr).
Proof.
  intros Hreach Hself.
  destruct (steps_wf growcap implements no_scope st Hreach wf_no_scope)
    as ([Htree _] & _).
  destruct (Close_closed_tree (length (scopes st)) self st Htree Hself)
    as (st' & tr & Hclose & _ & Hclosed); [lia|].
  exists st', tr. split; [done|]. split; [done|].
  intros fuel Hfuel. by apply (Close_mono (length (scopes st))).
Qed.

Lemma sample_family_unfold :
  sample_family
  = fst (AddDestructor 1 stuck
           (fst (AddDestructor 0 quick (fst (Copy sample_growcap 0 one_scope))))).
Proof.
  unfold sample_family.
  pose proof (Copy_child sample_growcap one_scope 0) as Hchild.
  destruct (Copy sample_growcap 0 one_scope) as [st1 child].
  simpl in Hchild. by subst child.
Qed.

Lemma sample_family_reachable :
  rtc (step sample_growcap sample_implements) no_scope sample_family.
Proof.
  rewrite sample_family_unfold.
  apply (rtc_l _ _ one_scope); [apply (step_factory _ _ no_scope [])|].
  apply (rtc_l _ _ (fst (Copy sample_growcap 0 one_scope)));
    [apply (step_Copy _ _ _ 0); vm_compute; lia|].
  apply (rtc_l _ _ (fst (AddDestructor 0 quick
                           (fst (Copy sample_growcap 0 one_scope)))));
    [apply (step_AddDestructor _ _ _ 0 quick); vm_compute; lia|].
  apply rtc_once. apply (step_AddDestructor _ _ _ 1 stuck). vm_compute. lia.
Qed.

Lemma Close_returns_witness :
  exists st' tr,
    Close 2 0 sample_family = Some (st', tr) /\ closed_tree st' 1.
Proof.
  destruct (Close_returns sample_growcap sample_implements sample_family 0
              sample_family_reachable)
    as (st' & tr & Hclose & Hclosed & _); [vm_compute; lia|].
  exists st', tr. split; [exact Hclose|].
  inversion Hclosed as [id Hdes Hch]. apply Hch.
  assert (Hsame : children (get st' 0) = children (get sample_family 0)).
  { destruct (Close_frame _ _ _ _ _ Hclose) as [Hkept _]. apply Hkept. }
  rewrite Hsame. vm_compute. apply list_elem_of_here.
Defined.

End TerminationFacts.

(** ** Variables of a scope and of the scopes made from it *)

Section VariableFacts.
Import Scopes Invariants.

Variable Associative : Row -> string -> Any * bool.

Lemma resolve_loop_nil_iff_absent (frames : list Row) (field : string) (d : Any) :
  is_nil (fst (resolve_loop Associative frames field d))
  = negb (snd (resolve_loop Associative frames field d)).
Proof.
  revert d. induction frames as [|r frames IH]; intros d; simpl.
  - by rewrite negb_involutive.
  - destruct (Associative r field) as [e [|]]; simpl.
    + by destruct (is_nil e) eqn:He.
    + destruct (negb (is_nil e) && is_nil d); apply IH.
Qed.

(** Resolve never reports a nil value as present, nor a value other
    than nil as absent. *)
Theorem Resolve_nil_iff_absent (s : Scope) (field : string) :
  is_nil (fst (Resolve Associative s field))
  = negb (snd (Resolve Associative s field)).
Proof. apply resolve_loop_nil_iff_absent. Qed.

(** A frame that knows nothing of a name, neither a value nor a
    default, leaves the resolution of that name as it was. *)
Theorem AppendVars_unaware (st : State) (self : nat) (row : Row)
    (field : string) :
  self < length (scopes st) ->
  Associative row field = (Nil, false) ->
  Resolve Associative (get (AppendVars self row st) self) field
  = Resolve Associative (get st self) field.
Proof.
  intros Hself Hrow. unfold Resolve.
  rewrite get_AppendVars_vars by done. rewrite rev_app_distr. simpl.
  by rewrite Hrow.
Qed.

Lemma get_AppendVars_other (st : State) (self id : nat) (row : Row) :
  id <> self -> get (AppendVars self row st) id = get st id.
Proof. intros Hne. unfold AppendVars. by rewrite get_set_ne. Qed.

Lemma Copy_vars (growcap : nat -> nat -> nat) (st : State) (P : nat) :
  P < length (scopes st) ->
  vars (get (fst (Copy growcap P st)) (length (scopes st))) = vars (get st P)
  /\ vars (get (fst (Copy growcap P st)) P) = vars (get st P)
  /\ length (scopes (fst (Copy growcap P st))) = S (length (scopes st)).
Proof.
  intros HP.
  destruct (Copy_unfold growcap st P) as (arrs & disp & _ & ->). simpl.
  set (l := <[P := _]> (scopes st)).
  assert (Hlen : length l = length (scopes st)) by apply length_insert.
  split; [|split].
  - rewrite <- Hlen. by rewrite get_app_new.
  - rewrite (get_app_l _ _ _ arrs) by (rewrite Hlen; exact HP).
    unfold l. by rewrite get_insert_eq.
  - rewrite length_app, Hlen. simpl. lia.
Qed.

(** The child that [Copy] returns resolves every name as its parent
    does at the time of the copy; a frame appended to either of them
    afterwards is not seen by the other. *)
Theorem Copy_variables (growcap : nat -> nat -> nat) (st : State) (P : nat)
    (row : Row) (field : string) :
  P < length (scopes st) ->
  let st1 := fst (Copy growcap P st) in
  let c := snd (Copy growcap P st) in
  Resolve Associative (get st1 c) field = Resolve Associative (get st P) field
  /\ Resolve Associative (get (AppendVars c row st1) P) field
     = Resolve Associative (get st P) field
  /\ Resolve Associative (get (AppendVars P row st1) c) field
     = Resolve Associative (get st P) field.
Proof.
  intros HP st1 c. unfold st1, c. rewrite Copy_child.
  destruct (Copy_vars growcap st P HP) as (Hchild & Hparent & Hlen).
  unfold Resolve. split; [by rewrite Hchild|]. split.
  - rewrite get_AppendVars_other by lia. by rewrite Hparent.
  - rewrite get_AppendVars_other by lia. by rewrite Hchild.
Qed.

End VariableFacts.

Section VariableExamples.
Import Scopes Invariants.

Lemma AppendVars_unaware_witness :
  let st := AppendVars 0 (VDict [("k"%string, VInt 1)]) one_scope in
  Resolve dict_Associative
    (get (AppendVars 0 (VDict [("other"%string, VInt 2)]) st) 0) "k"
  = (VInt 1, true).
Proof.
  simpl.
  rewrite (AppendVars_unaware dict_Associative
             (AppendVars 0 (VDict [("k"%string, VInt 1)]) one_scope) 0
             (VDict [("other"%string, VInt 2)]) "k").
  - reflexivity.
  - vm_compute. lia.
  - reflexivity.
Defined.

Lemma Copy_variables_witness :
  let st := AppendVars 0 (VDict [("k"%string, VInt 1)]) one_scope in
  let st1 := fst (Copy sample_growcap 0 st) in
  Resolve dict_Associative (get st1 1) "k" = (VInt 1, true)
  /\ Resolve dict_Associative
       (get (AppendVars 1 (VDict [("k"%string, VInt 2)]) st1) 0) "k"
     = (VInt 1, true).
Proof.
  destruct (Copy_variables dict_Associative sample_growcap
              (AppendVars 0 (VDict [("k"%string, VInt 1)]) one_scope) 0
              (VDict [("k"%string, VInt 2)]) "k")
    as (Hchild & Hparent & _).
  - vm_compute. lia.
  - split; [exact Hchild|exact Hparent].
Defined.

(** The scope that [NewScope] returns holds none of the variables of
    the scope it was made from: it resolves NULL, to Null, and no other
    name. *)
Theorem NewScope_variables (growcap : nat -> nat -> nat) (st : State)
    (P : nat) (field : string) :
  Resolve dict_Associative
    (get (fst (NewScope growcap P st)) (snd (NewScope growcap P st))) field
  = if String.eqb field "NULL" then (VNull, true) else (Nil, false).
Proof.
  unfold NewScope.
  destruct (copy_dispatchers growcap protocols (dispatcher (get st P))
              (arrays st) (fun _ => nil_slice)) as [arrs disp]. simpl.
  rewrite get_app_new. unfold Resolve. simpl.
  by destruct (String.eqb field "NULL").
Qed.

End VariableExamples.

(** ** Dispatch of Iterate *)

Section IterateMore.
Import Iterate Lazy.

Variable is_null : Any -> bool.

Lemma first_applicable_first (before after : list IterateProtocol)
    (i : IterateProtocol) (a : Any) :
  (forall j, j ∈ before -> Applicable j a = false) ->
  Applicable i a = true ->
  first_applicable (before ++ i :: after) a = Some i.
Proof.
  intros Hbefore Hi. induction before as [|j before IH]; simpl.
  - by rewrite Hi.
  - rewrite (Hbefore j) by apply list_elem_of_here.
    apply IH. intros k Hk. apply Hbefore. by apply list_elem_of_further.
Qed.

(** The first applicable implementation, in the order of registration,
    iterates the value; those registered after it are not consulted,
    applicable or not. *)
Theorem Iterate_first_applicable (before after : list IterateProtocol)
    (i : IterateProtocol) (ctx : Context) (a : Any) :
  fast_path a = false ->
  (forall j, j ∈ before -> Applicable j a = false) ->
  Applicable i a = true ->
  Iterate is_null {| impl := before ++ i :: after |} ctx a = Iterate_of i ctx a.
Proof.
  intros Hfast Hbefore Hi.
  destruct a; simpl in Hfast; try discriminate; simpl;
    by rewrite (first_applicable_first _ _ _ _ Hbefore Hi).
Qed.

Lemma Iterate_unwrap (self : IterateDispatcher) (ctx : Context) (a : Any) :
  Iterate is_null self ctx a = Iterate is_null self ctx (unwrap a).
Proof. induction a; simpl; auto. Qed.


End IterateMore.

Section IterateExamples.
Import Iterate Lazy.

Lemma Iterate_first_applicable_witness :
  Iterate is_null_spec {| impl := [] ++ slices_only :: [slices_only] |}
    {| ctx_done := true |} (VSlice [VInt 1; VInt 2])
  = [VInt 1; VInt 2].
Proof.
  apply (Iterate_first_applicable is_null_spec [] [slices_only] slices_only
           {| ctx_done := true |} (VSlice [VInt 1; VInt 2])).
  - reflexivity.
  - intros j Hj. inversion Hj.
  - reflexivity.
Defined.


End IterateExamples.

(** ** Depth, keys and scopes as operands *)

Section ScopeOpsFacts.
Import Scopes Invariants ScopeOps.

Lemma wrap_int_succ_pred (d : Z) :
  is_int d ->
  wrap_int (wrap_int (d + 1) - 1) = d /\ wrap_int (wrap_int (d - 1) + 1) = d.
Proof.
  unfold is_int, wrap_int. intros Hd. split.
  - replace ((d + 1 + 2 ^ 63) mod 2 ^ 64 - 2 ^ 63 - 1 + 2 ^ 63)%Z
      with ((d + 1 + 2 ^ 63) mod 2 ^ 64 - 1)%Z by lia.
    rewrite Zminus_mod_idemp_l.
    replace (d + 1 + 2 ^ 63 - 1)%Z with (d + 2 ^ 63)%Z by lia.
    rewrite Z.mod_small; lia.
  - replace ((d - 1 + 2 ^ 63) mod 2 ^ 64 - 2 ^ 63 + 1 + 2 ^ 63)%Z
      with ((d - 1 + 2 ^ 63) mod 2 ^ 64 + 1)%Z by lia.
    rewrite Zplus_mod_idemp_l.
    replace (d - 1 + 2 ^ 63 + 1)%Z with (d + 2 ^ 63)%Z by lia.
    rewrite Z.mod_small; lia.
Qed.

(** [incDepth] and [decDepth] undo each other, also where the counter
    overflows, and neither touches another scope. *)
Theorem incDepth_decDepth (st : State) (self : nat) :
  self < length (scopes st) ->
  is_int (getDepth self st) ->
  getDepth self (decDepth self (incDepth self st)) = getDepth self st
  /\ getDepth self (incDepth self (decDepth self st)) = getDepth self st
  /\ forall id, id <> self ->
       get (decDepth self (incDepth self st)) id = get st id.
Proof.
  intros Hself Hint. unfold getDepth in *.
  destruct (wrap_int_succ_pred _ Hint) as [H1 H2].
  assert (Hlen : forall s, length (scopes (set st self s)) = length (scopes st)).
  { intros s. unfold set. simpl. apply length_insert. }
  split; [|split].
  - unfold decDepth. rewrite get_set_eq by (unfold incDepth; rewrite Hlen; done).
    simpl. unfold incDepth. rewrite get_set_eq by done. simpl. exact H1.
  - unfold incDepth. rewrite get_set_eq by (unfold decDepth; rewrite Hlen; done).
    simpl. unfold decDepth. rewrite get_set_eq by done. simpl. exact H2.
  - intros id Hne. unfold decDepth. rewrite get_set_ne by done.
    unfold incDepth. by rewrite get_set_ne.
Qed.

Section KeysFacts.

Variable GetMembers : Row -> list string.
Variable InString : list string -> string -> bool.
Hypothesis InString_spec : forall l k, InString l k = true <-> k ∈ l.

Lemma add_keys_spec (members result : list string) :
  NoDup result ->
  NoDup (add_keys InString result members)
  /\ forall k, k ∈ add_keys InString result members <-> k ∈ result \/ k ∈ members.
Proof.
  revert result. induction members as [|m members IH]; intros result Hnd; simpl.
  - split; [done|]. intros k. split; [by left|]. intros [H|H]; [done|inversion H].
  - destruct (InString result m) eqn:Hm.
    + apply InString_spec in Hm. destruct (IH result Hnd) as [Hnd' Hin].
      split; [done|]. intros k. rewrite Hin, elem_of_cons.
      split; [intros [H|H]; auto|]. intros [H|[->|H]]; auto.
    + assert (Hnot : m ∉ result).
      { intros Hin. apply InString_spec in Hin. congruence. }
      destruct (IH (result ++ [m])) as [Hnd' Hin].
      { apply NoDup_app. split; [done|]. split.
        - intros x Hx Hx'. apply list_elem_of_singleton in Hx'. by subst x.
        - apply NoDup_singleton. }
      split; [done|]. intros k.
      rewrite Hin, elem_of_app, list_elem_of_singleton, elem_of_cons. tauto.
Qed.

(** [Keys] lists every member name of every frame, each name once. *)
Theorem Keys_spec (s : Scope) :
  NoDup (Keys GetMembers InString s)
  /\ forall k, k ∈ Keys GetMembers InString s
               <-> exists frame, frame ∈ vars s /\ k ∈ GetMembers frame.
Proof.
  unfold Keys.
  assert (H : forall frames result,
            NoDup result ->
            NoDup (fold_left (fun result frame =>
                                add_keys InString result (GetMembers frame))
                             frames result)
            /\ forall k,
                 k ∈ fold_left (fun result frame =>
                                  add_keys InString result (GetMembers frame))
                               frames result
                 <-> k ∈ result
                     \/ exists frame, frame ∈ frames /\ k ∈ GetMembers frame).
  { induction frames as [|f frames IH]; intros result Hnd; simpl.
    - split; [done|]. intros k. split; [by left|].
      intros [Hk|(frame & Hf & _)]; [done|inversion Hf].
    - destruct (add_keys_spec (GetMembers f) result Hnd) as [Hnd1 Hin1].
      destruct (IH _ Hnd1) as [Hnd2 Hin2]. split; [done|].
      intros k. rewrite Hin2, Hin1. split.
      + intros [[Hk|Hk]|(frame & Hf & Hk)].
        * by left.
        * right. exists f. split; [apply list_elem_of_here|done].
        * right. exists frame. split; [by apply list_elem_of_further|done].
      + intros [Hk|(frame & Hf & Hk)]; [by left; left|].
        apply elem_of_cons in Hf as [->|Hf]; [by left; right|].
        right. by exists frame. }
  destruct (H (vars s) [] (NoDup_nil_2)) as [Hnd Hin]. split; [done|].
  intros k. rewrite Hin. split; [|by right].
  intros [Hk|Hk]; [inversion Hk|done].
Qed.

End KeysFacts.

Section ScopeAssociativeFacts.

Variable to_string : Operand -> option string.
Variable GetMembers_of : Scope -> Row -> list string.
Variable range_keys : list string -> list string.
Variable Associative : Row -> string -> Any * bool.

(** For every operand that [_ScopeAssociative] declares itself
    applicable to, a pointer to a scope, its [GetMembers] lists no
    member at all, while its [Associative] resolves the name in that
    scope; on every other pair of operands [Associative] answers nil
    and false. *)
Theorem ScopeAssociative_members_of_a_pointer (st : State) (scope : nat)
    (a b : Operand) :
  (ScopeAssociative_Applicable to_string a b = true ->
   ScopeAssociative_GetMembers GetMembers_of range_keys st scope a = []
   /\ exists id name,
        a = OScopePtr id /\ to_string b = Some name
        /\ ScopeAssociative_Associative to_string Associative st a b
           = Resolve Associative (get st id) name)
  /\ (ScopeAssociative_Applicable to_string a b = false ->
      ScopeAssociative_Associative to_string Associative st a b = (Nil, false)).
Proof.
  unfold ScopeAssociative_Applicable, ScopeAssociative_Associative. split.
  - intros H. apply andb_prop in H as [Ha Hb].
    destruct a as [id| |]; try discriminate.
    destruct (to_string b) as [name|]; try discriminate.
    split; [reflexivity|]. by exists id, name.
  - intros H. destruct (to_string b) as [name|]; [|done].
    destruct a; done.
Qed.

End ScopeAssociativeFacts.

End ScopeOpsFacts.

Section ScopeOpsExamples.
Import Scopes Invariants ScopeOps.

Lemma incDepth_decDepth_witness :
  let st := set one_scope 0
              {| vars := []; dispatcher := fun _ => nil_slice;
                 stack_depth := 2 ^ 63 - 1; children := [];
                 destructors := {| fn := []; is_destroyed := false |} |} in
  getDepth 0 (incDepth 0 st) = (- 2 ^ 63)%Z
  /\ getDepth 0 (decDepth 0 (incDepth 0 st)) = (2 ^ 63 - 1)%Z.
Proof.
  split; [reflexivity|].
  apply (incDepth_decDepth
           (set one_scope 0
              {| vars := []; dispatcher := fun _ => nil_slice;
                 stack_depth := 2 ^ 63 - 1; children := [];
                 destructors := {| fn := []; is_destroyed := false |} |}) 0).
  - vm_compute. lia.
  - unfold is_int. vm_compute. split; [discriminate|reflexivity].
Defined.

(** For the examples: membership in a list of strings. *)
Lemma sample_InString_spec (l : list string) (k : string) :
  existsb (String.eqb k) l = true <-> k ∈ l.
Proof.
  rewrite existsb_exists. split.
  - intros (x & Hx & He). apply String.eqb_eq in He. subst x.
    by apply list_elem_of_In.
  - intros H. exists k. split; [by apply list_elem_of_In|apply String.eqb_refl].
Qed.

Lemma Keys_spec_witness :
  let s := {| vars := [VDict [("NULL"%string, VNull)];
                       VDict [("a"%string, VInt 1); ("b"%string, VInt 2)];
                       VDict [("b"%string, VInt 3)]];
              dispatcher := fun _ => nil_slice; stack_depth := 0;
              children := [];
              destructors := {| fn := []; is_destroyed := false |} |} in
  let members := fun r => match r with VDict d => map fst d | _ => [] end in
  Keys members (fun l k => existsb (String.eqb k) l) s
  = ["NULL"%string; "a"%string; "b"%string]
  /\ NoDup (Keys members (fun l k => existsb (String.eqb k) l) s).
Proof.
  split; [reflexivity|].
  apply (Keys_spec (fun r => match r with VDict d => map fst d | _ => [] end)
           (fun l k => existsb (String.eqb k) l) sample_InString_spec).
Defined.

Lemma ScopeAssociative_members_of_a_pointer_witness :
  ScopeAssociative_GetMembers
    (fun _ r => match r with VDict d => map fst d | _ => [] end)
    (fun keys => keys) one_scope 0 (OScopePtr 0) = []
  /\ ScopeAssociative_Associative sample_to_string dict_Associative one_scope
       (OScopePtr 0) (OAny (VString "NULL"))
     = (VNull, true).
Proof.
  destruct (ScopeAssociative_members_of_a_pointer sample_to_string
              (fun _ r => match r with VDict d => map fst d | _ => [] end)
              (fun keys => keys) dict_Associative one_scope 0
              (OScopePtr 0) (OAny (VString "NULL")))
    as [Happ _].
  destruct (Happ eq_refl) as (Hmembers & id & name & Ha & Hb & Hassoc).
  split; [exact Hmembers|]. rewrite Hassoc.
  injection Ha as <-. injection Hb as <-. reflexivity.
Defined.

End ScopeOpsExamples.


(** ** Registries and context *)

Section WorldFacts.
Import Scopes Invariants World.

Lemma dict_get_set_eq (d : Dict) (k : string) (v : Any) :
  dict_get (dict_set d k v) k = (v, true).
Proof.
  induction d as [|[k' v'] d IH]; simpl.
  - by rewrite String.eqb_refl.
  - destruct (String.eqb k k') eqn:E; simpl.
    + by rewrite String.eqb_refl.
    + by rewrite E.
Qed.

Lemma dict_get_set_ne (d : Dict) (k k' : string) (v : Any) :
  k' <> k -> dict_get (dict_set d k v) k' = dict_get d k'.
Proof.
  intros Hne. induction d as [|[k0 v0] d IH]; simpl.
  - by rewrite (proj2 (String.eqb_neq k' k)).
  - destruct (String.eqb k k0) eqn:E; simpl.
    + apply String.eqb_eq in E. subst k0.
      by rewrite (proj2 (String.eqb_neq k' k)).
    + by rewrite IH.
Qed.

Lemma find_app {A : Type} (f : A -> bool) (l1 l2 : list A) :
  List.find f (l1 ++ l2)
  = match List.find f l1 with Some x => Some x | None => List.find f l2 end.
Proof. induction l1 as [|a l1 IH]; simpl; [done|]. by destruct (f a). Qed.

Lemma add_plugins_lookup (ps : list PluginGeneratorInterface) (name : string) :
  forall m,
  add_plugins ps m !! name
  = match last_plugin name ps with Some p => Some p | None => m !! name end.
Proof.
  unfold add_plugins, last_plugin.
  induction ps as [|p ps IH]; intros m; simpl; [done|].
  rewrite IH, find_app. simpl.
  destruct (List.find _ (rev ps)); [done|].
  destruct (String.eqb name (plugin_name p)) eqn:E.
  - apply String.eqb_eq in E. subst name. by rewrite lookup_insert_eq.
  - apply String.eqb_neq in E. by rewrite lookup_insert_ne.
Qed.

Lemma add_functions_lookup (fs : list FunctionInterface) (name : string) :
  forall m,
  add_functions fs m !! name
  = match last_function name fs with Some f => Some f | None => m !! name end.
Proof.
  unfold add_functions, last_function.
  induction fs as [|f fs IH]; intros m; simpl; [done|].
  rewrite IH, find_app. simpl.
  destruct (List.find _ (rev fs)); [done|].
  destruct (String.eqb name (function_name f)) eqn:E.
  - apply String.eqb_eq in E. subst name. by rewrite lookup_insert_eq.
  - apply String.eqb_neq in E. by rewrite lookup_insert_ne.
Qed.

Lemma pointers_of_valid (w : World) (self : nat) :
  wf_world w -> self < length (scopes (state w)) ->
  functions (pointers_of w self) < length (function_maps w)
  /\ plugins (pointers_of w self) < length (plugin_maps w)
  /\ context (pointers_of w self) < length (dicts w).
Proof.
  intros [Hlen Hptr] Hself. unfold pointers_of.
  destruct (pointers w !! self) as [p|] eqn:E.
  - simpl. by eapply Hptr.
  - apply lookup_ge_None in E. lia.
Qed.

Lemma Copy_unfold_world (growcap : nat -> nat -> nat) (P : nat) (w : World) :
  Copy growcap P w
  = ({| state := fst (Scopes.Copy growcap P (state w));
        pointers := pointers w ++ [pointers_of w P];
        function_maps := function_maps w;
        plugin_maps := plugin_maps w;
        dicts := dicts w |},
     length (scopes (state w))).
Proof.
  unfold Copy. pose proof (Copy_child growcap (state w) P) as Hc.
  destruct (Scopes.Copy growcap P (state w)) as [st c]. simpl in *. by subst c.
Qed.

Lemma NewScope_length (growcap : nat -> nat -> nat) (P : nat) (st : State) :
  snd (Scopes.NewScope growcap P st) = length (scopes st)
  /\ length (scopes (fst (Scopes.NewScope growcap P st))) = S (length (scopes st)).
Proof.
  unfold Scopes.NewScope.
  destruct (copy_dispatchers growcap protocols (dispatcher (get st P))
              (arrays st) (fun _ => nil_slice)) as [arrs disp]. simpl.
  split; [done|]. rewrite length_app. simpl. lia.
Qed.

Lemma Copy_length (growcap : nat -> nat -> nat) (P : nat) (st : State) :
  length (scopes (fst (Scopes.Copy growcap P st))) = S (length (scopes st)).
Proof.
  destruct (Copy_unfold growcap st P) as (arrs & disp & _ & ->). simpl.
  rewrite length_app, length_insert. simpl. lia.
Qed.

Lemma NewScope_unfold_world (growcap : nat -> nat -> nat) (P : nat) (w : World) :
  NewScope growcap P w
  = ({| state := fst (Scopes.NewScope growcap P (state w));
        pointers := pointers w ++ [{| functions := functions (pointers_of w P);
                                      plugins := plugins (pointers_of w P);
                                      context := length (dicts w) |}];
        function_maps := function_maps w;
        plugin_maps := plugin_maps w;
        dicts := dicts w ++ [[]] |},
     length (scopes (state w))).
Proof.
  unfold NewScope. destruct (NewScope_length growcap P (state w)) as [Hn _].
  destruct (Scopes.NewScope growcap P (state w)) as [st n]. simpl in *. by subst n.
Qed.

Lemma pointers_of_app_l (w : World) (l : list Pointers) (extra : Pointers)
    (st : State) fm pm ds (id : nat) :
  id < length l ->
  pointers_of {| state := st; pointers := l ++ [extra]; function_maps := fm;
                 plugin_maps := pm; dicts := ds |} id
  = default {| functions := 0; plugins := 0; context := 0 |} (l !! id).
Proof. intros H. unfold pointers_of. simpl. by rewrite lookup_app_l. Qed.

Lemma pointers_of_app_new (l : list Pointers) (extra : Pointers)
    (st : State) fm pm ds :
  pointers_of {| state := st; pointers := l ++ [extra]; function_maps := fm;
                 plugin_maps := pm; dicts := ds |} (length l)
  = extra.
Proof. unfold pointers_of. simpl. by rewrite list_lookup_middle. Qed.

(** [Copy] and [NewScope] keep the references in order. *)
Lemma Copy_wf_world (growcap : nat -> nat -> nat) (P : nat) (w : World) :
  wf_world w -> P < length (scopes (state w)) ->
  wf_world (fst (Copy growcap P w)).
Proof.
  intros Hwf HP. pose proof (pointers_of_valid w P Hwf HP) as HvP.
  destruct Hwf as [Hlen Hptr]. rewrite Copy_unfold_world. simpl. split.
  - simpl. rewrite length_app, Copy_length. simpl. lia.
  - intros id p Hp. simpl in *.
    apply lookup_app_Some in Hp as [Hp|[_ Hp]]; [by eapply Hptr|].
    destruct (id - length (pointers w)); simpl in Hp; [|done].
    by injection Hp as <-.
Qed.

Lemma NewScope_wf_world (growcap : nat -> nat -> nat) (P : nat) (w : World) :
  wf_world w -> P < length (scopes (state w)) ->
  wf_world (fst (NewScope growcap P w)).
Proof.
  intros Hwf HP. pose proof (pointers_of_valid w P Hwf HP) as (Hf & Hp & _).
  destruct Hwf as [Hlen Hptr]. rewrite NewScope_unfold_world. simpl. split.
  - simpl. rewrite length_app.
    destruct (NewScope_length growcap P (state w)) as [_ ->]. simpl. lia.
  - intros id p Hin. simpl in *. rewrite length_app. simpl.
    apply lookup_app_Some in Hin as [Hin|[_ Hin]].
    + destruct (Hptr _ _ Hin) as (? & ? & ?). repeat split; lia.
    + destruct (id - length (pointers w)); simpl in Hin; [|done].
      injection Hin as <-. simpl. repeat split; lia.
Qed.

Lemma Info_AppendPlugins (w : World) (self other : nat) (name : string)
    (ps : list PluginGeneratorInterface) :
  wf_world w ->
  self < length (scopes (state w)) ->
  Info other name (AppendPlugins self ps w)
  = (if decide (plugins (pointers_of w other) = plugins (pointers_of w self))
     then match last_plugin name ps with
          | Some p => Some p
          | None => Info other name w
          end
     else Info other name w).
Proof.
  intros Hwf Hself.
  destruct (pointers_of_valid w self Hwf Hself) as (_ & Hp & _).
  apply lookup_lt_is_Some in Hp as [pm Hpm].
  unfold Info, plugins_of, AppendPlugins, pointers_of. simpl.
  fold (pointers_of w other). fold (pointers_of w self).
  case_decide as E.
  - rewrite E, list_lookup_alter_eq, Hpm. simpl. apply add_plugins_lookup.
  - by rewrite list_lookup_alter_ne.
Qed.

Lemma lookup_AppendFunctions (w : World) (self other : nat) (name : string)
    (fs : list FunctionInterface) :
  wf_world w ->
  self < length (scopes (state w)) ->
  functions_of (AppendFunctions self fs w) other !! name
  = (if decide (functions (pointers_of w other) = functions (pointers_of w self))
     then match last_function name fs with
          | Some f => Some f
          | None => functions_of w other !! name
          end
     else functions_of w other !! name).
Proof.
  intros Hwf Hself.
  destruct (pointers_of_valid w self Hwf Hself) as (Hf & _ & _).
  apply lookup_lt_is_Some in Hf as [fm Hfm].
  unfold functions_of, AppendFunctions, pointers_of. simpl.
  fold (pointers_of w other). fold (pointers_of w self).
  case_decide as E.
  - rewrite E, list_lookup_alter_eq, Hfm. simpl. apply add_functions_lookup.
  - by rewrite list_lookup_alter_ne.
Qed.

(** What [AppendPlugins] and [AppendFunctions] register is found under
    its name by every scope that shares the registry, the last
    registration of a name standing for all earlier ones; names that
    are not registered anew, and registries that are not shared, stay
    as they were. *)
Theorem Append_registers_last (w : World) (self other : nat) (name : string)
    (ps : list PluginGeneratorInterface) (fs : list FunctionInterface) :
  wf_world w ->
  self < length (scopes (state w)) ->
  (plugins (pointers_of w other) = plugins (pointers_of w self) ->
   forall p, last_plugin name ps = Some p ->
   Info other name (AppendPlugins self ps w) = Some p)
  /\ (plugins (pointers_of w other) <> plugins (pointers_of w self)
      \/ last_plugin name ps = None ->
      Info other name (AppendPlugins self ps w) = Info other name w)
  /\ (functions (pointers_of w other) = functions (pointers_of w self) ->
      forall f, last_function name fs = Some f ->
      functions_of (AppendFunctions self fs w) other !! name = Some f)
  /\ (functions (pointers_of w other) <> functions (pointers_of w self)
      \/ last_function name fs = None ->
      functions_of (AppendFunctions self fs w) other !! name
      = functions_of w other !! name).
Proof.
  intros Hwf Hself.
  rewrite (Info_AppendPlugins w self other name ps Hwf Hself).
  rewrite (lookup_AppendFunctions w self other name fs Hwf Hself).
  split; [|split; [|split]].
  - intros E p ->. by rewrite decide_True.
  - intros [E| ->]; [by rewrite decide_False|]. by case_decide.
  - intros E f ->. by rewrite decide_True.
  - intros [E| ->]; [by rewrite decide_False|]. by case_decide.
Qed.

Lemma Info_alloc (st : State) (l : list Pointers) (extra : Pointers) fm pm
    ds (w : World) (id : nat) (name : string) :
  l = pointers w -> pm = plugin_maps w -> id < length l ->
  Info id name {| state := st; pointers := l ++ [extra]; function_maps := fm;
                  plugin_maps := pm; dicts := ds |}
  = Info id name w.
Proof.
  intros -> -> Hid. unfold Info, plugins_of.
  rewrite (pointers_of_app_l w) by done. reflexivity.
Qed.

(** A scope made by [Copy] or by [NewScope] uses the plugin registry of
    the scope it was made from: what one of the two registers, the
    other finds. *)
Theorem registry_is_shared (growcap : nat -> nat -> nat) (w : World) (P : nat)
    (name : string) (ps : list PluginGeneratorInterface) :
  wf_world w ->
  P < length (scopes (state w)) ->
  let found := fun (old : option PluginGeneratorInterface) =>
    match last_plugin name ps with Some p => Some p | None => old end in
  (let w1 := fst (Copy growcap P w) in
   let c := snd (Copy growcap P w) in
   Info P name (AppendPlugins c ps w1) = found (Info P name w)
   /\ Info c name (AppendPlugins P ps w1) = found (Info P name w))
  /\ (let w1 := fst (NewScope growcap P w) in
      let n := snd (NewScope growcap P w) in
      Info P name (AppendPlugins n ps w1) = found (Info P name w)
      /\ Info n name (AppendPlugins P ps w1) = found (Info P name w)).
Proof.
  intros Hwf HP found.
  pose proof Hwf as [Hlen _].
  assert (HPl : P < length (pointers w)) by lia.
  split.
  - pose proof (Copy_wf_world growcap P w Hwf HP) as Hwf1.
    rewrite Copy_unfold_world in *. simpl in *.
    set (w1 := {| state := fst (Scopes.Copy growcap P (state w));
                  pointers := pointers w ++ [pointers_of w P];
                  function_maps := function_maps w;
                  plugin_maps := plugin_maps w; dicts := dicts w |}) in *.
    assert (HpP : pointers_of w1 P = pointers_of w P).
    { unfold w1. by rewrite (pointers_of_app_l w). }
    assert (Hpc : pointers_of w1 (length (scopes (state w))) = pointers_of w P).
    { unfold w1. rewrite <- Hlen. apply pointers_of_app_new. }
    assert (Hlen1 : length (scopes (state w1)) = S (length (scopes (state w)))).
    { unfold w1. simpl. apply Copy_length. }
    assert (HIP : Info P name w1 = Info P name w).
    { unfold w1. by apply Info_alloc. }
    assert (HIc : Info (length (scopes (state w))) name w1 = Info P name w).
    { unfold Info, plugins_of. rewrite Hpc. reflexivity. }
    split.
    + rewrite (Info_AppendPlugins w1 (length (scopes (state w))) P name ps
                 Hwf1 ltac:(lia)).
      rewrite decide_True by congruence. by rewrite HIP.
    + rewrite (Info_AppendPlugins w1 P (length (scopes (state w))) name ps
                 Hwf1 ltac:(lia)).
      rewrite decide_True by congruence. by rewrite HIc.
  - pose proof (NewScope_wf_world growcap P w Hwf HP) as Hwf1.
    rewrite NewScope_unfold_world in *. simpl in *.
    set (w1 := {| state := fst (Scopes.NewScope growcap P (state w));
                  pointers := pointers w ++ [_];
                  function_maps := function_maps w;
                  plugin_maps := plugin_maps w; dicts := dicts w ++ [[]] |}) in *.
    assert (HpP : pointers_of w1 P = pointers_of w P).
    { unfold w1. by rewrite (pointers_of_app_l w). }
    assert (Hpc : plugins (pointers_of w1 (length (scopes (state w))))
                  = plugins (pointers_of w P)).
    { unfold w1. rewrite <- Hlen. by rewrite pointers_of_app_new. }
    assert (Hlen1 : length (scopes (state w1)) = S (length (scopes (state w)))).
    { unfold w1. simpl. apply NewScope_length. }
    assert (HIP : Info P name w1 = Info P name w).
    { unfold w1. by apply Info_alloc. }
    assert (HIc : Info (length (scopes (state w))) name w1 = Info P name w).
    { unfold Info, plugins_of. rewrite Hpc. reflexivity. }
    split.
    + rewrite (Info_AppendPlugins w1 (length (scopes (state w))) P name ps
                 Hwf1 ltac:(lia)).
      rewrite decide_True by congruence. by rewrite HIP.
    + rewrite (Info_AppendPlugins w1 P (length (scopes (state w))) name ps
                 Hwf1 ltac:(lia)).
      rewrite decide_True by congruence. by rewrite HIc.
Qed.

Lemma GetContext_SetContext (w : World) (self other : nat)
    (name name' : string) (v : Any) :
  wf_world w ->
  self < length (scopes (state w)) ->
  GetContext other name' (SetContext self name v w)
  = if decide (context (pointers_of w other) = context (pointers_of w self)
               /\ name' = name)
    then v
    else GetContext other name' w.
Proof.
  intros Hwf Hself.
  destruct (pointers_of_valid w self Hwf Hself) as (_ & _ & Hc).
  apply lookup_lt_is_Some in Hc as [d Hd].
  unfold GetContext, context_of.
  change (pointers_of (SetContext self name v w) other) with (pointers_of w other).
  change (dicts (SetContext self name v w))
    with (alter (fun d => dict_set d name v) (context (pointers_of w self)) (dicts w)).
  destruct (decide (context (pointers_of w other) = context (pointers_of w self)))
    as [E|E].
  - unfold Dict in *. rewrite E, list_lookup_alter_eq, Hd. simpl.
    destruct (decide (name' = name)) as [->|Hne].
    + rewrite decide_True by done. by rewrite dict_get_set_eq.
    + rewrite decide_False by (intros [_ ?]; done).
      by rewrite dict_get_set_ne.
  - rewrite decide_False by (intros [? _]; done).
    by rewrite list_lookup_alter_ne.
Qed.

(** [SetContext] followed by [GetContext]: the value that was set is
    read back under its name, by every scope that uses the same context
    dictionary; other names, and scopes with another context, read what
    they read before. *)
Theorem SetContext_GetContext (w : World) (self other : nat)
    (name name' : string) (v : Any) :
  wf_world w ->
  self < length (scopes (state w)) ->
  (context (pointers_of w other) = context (pointers_of w self) ->
   GetContext other name (SetContext self name v w) = v)
  /\ (context (pointers_of w other) <> context (pointers_of w self)
      \/ name' <> name ->
      GetContext other name' (SetContext self name v w)
      = GetContext other name' w).
Proof.
  intros Hwf Hself.
  rewrite !(GetContext_SetContext w self other) by done. split.
  - intros E. by rewrite decide_True.
  - intros H. rewrite decide_False; [done|]. intros [? ?]. by destruct H.
Qed.

(** The child that [Copy] returns uses the context of its parent: each
    of the two reads what the other sets. *)
Theorem Copy_shares_context (growcap : nat -> nat -> nat) (w : World) (P : nat)
    (name : string) (v : Any) :
  wf_world w ->
  P < length (scopes (state w)) ->
  let w1 := fst (Copy growcap P w) in
  let c := snd (Copy growcap P w) in
  GetContext c name w1 = GetContext P name w
  /\ GetContext P name (SetContext c name v w1) = v
  /\ GetContext c name (SetContext P name v w1) = v.
Proof.
  intros Hwf HP. pose proof Hwf as [Hlen _].
  pose proof (Copy_wf_world growcap P w Hwf HP) as Hwf1.
  rewrite Copy_unfold_world in *. simpl in *.
  set (w1 := {| state := fst (Scopes.Copy growcap P (state w));
                pointers := pointers w ++ [pointers_of w P];
                function_maps := function_maps w;
                plugin_maps := plugin_maps w; dicts := dicts w |}) in *.
  assert (HpP : pointers_of w1 P = pointers_of w P).
  { unfold w1. rewrite (pointers_of_app_l w) by lia. reflexivity. }
  assert (Hpc : pointers_of w1 (length (scopes (state w))) = pointers_of w P).
  { unfold w1. rewrite <- Hlen. apply pointers_of_app_new. }
  assert (Hlen1 : length (scopes (state w1)) = S (length (scopes (state w)))).
  { unfold w1. simpl. apply Copy_length. }
  split; [|split].
  - unfold GetContext, context_of. by rewrite Hpc.
  - rewrite GetContext_SetContext by (try done; lia).
    rewrite decide_True; [done|]. split; [congruence|done].
  - rewrite GetContext_SetContext by (try done; lia).
    rewrite decide_True; [done|]. split; [congruence|done].
Qed.

(** The scope that [NewScope] returns has an empty context of its own:
    it reads nil under every name, before and after any scope that
    existed sets a value, and what it sets is read by none of them. *)
Theorem NewScope_fresh_context (growcap : nat -> nat -> nat) (w : World)
    (P other : nat) (name name' : string) (v : Any) :
  wf_world w ->
  P < length (scopes (state w)) ->
  other < length (scopes (state w)) ->
  let w1 := fst (NewScope growcap P w) in
  let n := snd (NewScope growcap P w) in
  GetContext n name' w1 = Nil
  /\ GetContext n name' (SetContext other name v w1) = Nil
  /\ GetContext other name' (SetContext n name v w1) = GetContext other name' w.
Proof.
  intros Hwf HP Hother. pose proof Hwf as [Hlen _].
  destruct (pointers_of_valid w other Hwf Hother) as (_ & _ & Hco).
  pose proof (NewScope_wf_world growcap P w Hwf HP) as Hwf1.
  rewrite NewScope_unfold_world in *. simpl in *.
  set (w1 := {| state := fst (Scopes.NewScope growcap P (state w));
                pointers := pointers w ++ [_];
                function_maps := function_maps w;
                plugin_maps := plugin_maps w; dicts := dicts w ++ [[]] |}) in *.
  assert (Hpo : pointers_of w1 other = pointers_of w other).
  { unfold w1. rewrite (pointers_of_app_l w) by lia. reflexivity. }
  assert (Hpn : context (pointers_of w1 (length (scopes (state w))))
                = length (dicts w)).
  { unfold w1. rewrite <- Hlen. by rewrite pointers_of_app_new. }
  assert (Hlen1 : length (scopes (state w1)) = S (length (scopes (state w)))).
  { unfold w1. simpl. apply NewScope_length. }
  assert (Hnil : GetContext (length (scopes (state w))) name' w1 = Nil).
  { unfold GetContext, context_of. rewrite Hpn. unfold w1. simpl.
    by rewrite list_lookup_middle. }
  assert (Hold : GetContext other name' w1 = GetContext other name' w).
  { unfold GetContext, context_of. rewrite Hpo. unfold w1. simpl.
    by rewrite lookup_app_l. }
  split; [done|]. split.
  - rewrite GetContext_SetContext by (try done; lia).
    rewrite decide_False; [done|]. intros [E _]. rewrite Hpn, Hpo in E. lia.
  - rewrite GetContext_SetContext by (try done; lia).
    rewrite decide_False; [done|]. intros [E _]. rewrite Hpn, Hpo in E. lia.
Qed.

Lemma ClearContext_wf_world (w : World) (self : nat) :
  wf_world w -> self < length (scopes (state w)) ->
  wf_world (ClearContext self w).
Proof.
  intros Hwf Hself. destruct (pointers_of_valid w self Hwf Hself) as (Hf & Hp & _).
  destruct Hwf as [Hlen Hptr]. unfold ClearContext. split; simpl.
  - rewrite length_insert. unfold AppendVars, set. simpl.
    by rewrite length_insert.
  - intros id p Hin. rewrite length_app. simpl.
    apply list_lookup_insert_Some in Hin as [(-> & <- & _)|[_ Hin]].
    + simpl. repeat split; lia.
    + destruct (Hptr _ _ Hin) as (? & ? & ?). repeat split; lia.
Qed.

(** [ClearContext] gives the scope an empty context of its own and one
    more frame with NULL: the scope reads nil under every name, the other
    scopes read what they read before, also after the scope sets a value,
    and NULL resolves to Null. *)
Theorem ClearContext_detaches (w : World) (self other : nat)
    (name name' : string) (v : Any) :
  wf_world w ->
  self < length (scopes (state w)) ->
  other < length (scopes (state w)) ->
  other <> self ->
  GetContext self name' (ClearContext self w) = Nil
  /\ GetContext other name' (ClearContext self w) = GetContext other name' w
  /\ GetContext other name' (SetContext self name v (ClearContext self w))
     = GetContext other name' w
  /\ vars (get (state (ClearContext self w)) self)
     = vars (get (state w) self) ++ [VDict [("NULL"%string, VNull)]]
  /\ Resolve dict_Associative (get (state (ClearContext self w)) self) "NULL"
     = (VNull, true).
Proof.
  intros Hwf Hself Hother Hne. pose proof Hwf as [Hlen _].
  destruct (pointers_of_valid w other Hwf Hother) as (_ & _ & Hco).
  pose proof (ClearContext_wf_world w self Hwf Hself) as Hwf1.
  assert (Hps : context (pointers_of (ClearContext self w) self) = length (dicts w)).
  { unfold pointers_of, ClearContext. simpl.
    by rewrite list_lookup_insert_eq by lia. }
  assert (Hpo : pointers_of (ClearContext self w) other = pointers_of w other).
  { unfold pointers_of at 1. unfold ClearContext. simpl.
    by rewrite list_lookup_insert_ne. }
  assert (Hlen1 : length (scopes (state (ClearContext self w)))
                  = length (scopes (state w))).
  { unfold ClearContext, AppendVars, set. simpl. apply length_insert. }
  assert (Hold : GetContext other name' (ClearContext self w)
                 = GetContext other name' w).
  { unfold GetContext, context_of. rewrite Hpo. unfold ClearContext. simpl.
    by rewrite lookup_app_l. }
  assert (Hvars : vars (get (state (ClearContext self w)) self)
                  = vars (get (state w) self) ++ [VDict [("NULL"%string, VNull)]]).
  { unfold ClearContext. simpl. by apply get_AppendVars_vars. }
  split; [|split; [done|split; [|split; [done|]]]].
  - unfold GetContext, context_of. rewrite Hps. unfold ClearContext. simpl.
    by rewrite list_lookup_middle.
  - rewrite GetContext_SetContext by (try done; lia).
    rewrite decide_False; [done|]. intros [E _]. rewrite Hps, Hpo in E. lia.
  - unfold Resolve. rewrite Hvars, rev_app_distr. reflexivity.
Qed.

Lemma match_option_id {A : Type} (o : option A) :
  match o with Some x => Some x | None => None end = o.
Proof. by destruct o. Qed.

(** The scope that the factory returns has registries and a context of
    its own: it finds the plugins and functions it was built with and
    nothing else, its context is empty, and what it and the scopes that
    existed register later stays apart. *)
Theorem factory_registries_are_new (growcap : nat -> nat -> nat)
    (implements : Any -> Protocol -> bool) (builtins : list Any)
    (fs : list FunctionInterface) (ps ps' : list PluginGeneratorInterface)
    (w : World) (other : nat) (name : string) (st' : State) :
  wf_world w ->
  other < length (scopes (state w)) ->
  fst (Scopes.vfilter_NewScope growcap implements builtins (state w))
  = Returned st' ->
  let w1 := fst (vfilter_NewScope growcap implements builtins fs ps w) in
  let r := snd (vfilter_NewScope growcap implements builtins fs ps w) in
  Info r name w1 = last_plugin name ps
  /\ functions_of w1 r !! name = last_function name fs
  /\ GetContext r name w1 = Nil
  /\ Info other name w1 = Info other name w
  /\ Info other name (AppendPlugins r ps' w1) = Info other name w
  /\ Info r name (AppendPlugins other ps' w1) = last_plugin name ps.
Proof.
  intros Hwf Hother Hret. pose proof Hwf as [Hlen Hptr].
  destruct (pointers_of_valid w other Hwf Hother) as (Hfo & Hpo & Hco).
  unfold vfilter_NewScope.
  unfold Scopes.vfilter_NewScope in *. simpl in Hret. rewrite Hret. simpl.
  rewrite <- Hlen.
  set (new := {| functions := length (function_maps w);
                 plugins := length (plugin_maps w);
                 context := length (dicts w) |}).
  set (w0 := {| state := st'; pointers := pointers w ++ [new];
                function_maps := function_maps w ++ [∅];
                plugin_maps := plugin_maps w ++ [∅];
                dicts := dicts w ++ [[]] |}).
  assert (Hpr : forall w', pointers w' = pointers w ++ [new] ->
                pointers_of w' (length (pointers w)) = new).
  { intros w' E. unfold pointers_of. by rewrite E, list_lookup_middle. }
  assert (Hpo' : forall w', pointers w' = pointers w ++ [new] ->
                 pointers_of w' other = pointers_of w other).
  { intros w' E. unfold pointers_of. rewrite E, lookup_app_l by lia. done. }
  set (wF := AppendFunctions (length (pointers w)) fs w0).
  set (w1 := AppendPlugins (length (pointers w)) ps wF).
  assert (HpF : pointers_of wF (length (pointers w)) = new)
    by (apply Hpr; reflexivity).
  assert (Hp1 : pointers_of w1 (length (pointers w)) = new)
    by (apply Hpr; reflexivity).
  assert (Hpo1 : pointers_of w1 other = pointers_of w other)
    by (apply Hpo'; reflexivity).
  assert (Hmaps : plugin_maps w1 = plugin_maps w ++ [add_plugins ps ∅]).
  { change (plugin_maps w1)
      with (alter (add_plugins ps) (plugins (pointers_of wF (length (pointers w))))
              (plugin_maps w ++ [∅])).
    rewrite HpF. change (plugins new) with (length (plugin_maps w)).
    rewrite <- (Nat.add_0_r (length (plugin_maps w))) at 1.
    by rewrite alter_app_r. }
  assert (Hfmaps : function_maps w1 = function_maps w ++ [add_functions fs ∅]).
  { change (function_maps w1)
      with (alter (add_functions fs)
              (functions (pointers_of w0 (length (pointers w))))
              (function_maps w ++ [∅])).
    rewrite (Hpr w0 eq_refl). change (functions new) with (length (function_maps w)).
    rewrite <- (Nat.add_0_r (length (function_maps w))) at 1.
    by rewrite alter_app_r. }
  assert (Hr : Info (length (pointers w)) name w1 = last_plugin name ps).
  { unfold Info, plugins_of. rewrite Hp1, Hmaps.
    change (plugins new) with (length (plugin_maps w)).
    rewrite list_lookup_middle by done. simpl.
    rewrite add_plugins_lookup, lookup_empty. apply match_option_id. }
  assert (Ho : Info other name w1 = Info other name w).
  { unfold Info, plugins_of. rewrite Hpo1, Hmaps.
    by rewrite lookup_app_l. }
  assert (Hap : forall self, plugin_maps (AppendPlugins self ps' w1)
                = alter (add_plugins ps') (plugins (pointers_of w1 self))
                    (plugin_maps w1)) by done.
  assert (Hpp : forall self id, pointers_of (AppendPlugins self ps' w1) id
                                = pointers_of w1 id) by done.
  split; [exact Hr|]. split; [|split; [|split; [exact Ho|split]]].
  - unfold functions_of. rewrite Hp1, Hfmaps.
    change (functions new) with (length (function_maps w)).
    rewrite list_lookup_middle by done. simpl.
    rewrite add_functions_lookup, lookup_empty. apply match_option_id.
  - unfold GetContext, context_of. rewrite Hp1.
    change (dicts w1) with (dicts w ++ [[]]).
    change (context new) with (length (dicts w)).
    by rewrite list_lookup_middle.
  - rewrite <- Ho. unfold Info, plugins_of. rewrite Hap, !Hpp, Hp1, Hpo1.
    change (plugins new) with (length (plugin_maps w)).
    by rewrite list_lookup_alter_ne by lia.
  - rewrite <- Hr. unfold Info, plugins_of. rewrite Hap, !Hpp, Hp1, Hpo1.
    change (plugins new) with (length (plugin_maps w)).
    by rewrite list_lookup_alter_ne by lia.
Qed.

Lemma SetContext_wf_world (w : World) (self : nat) (name : string) (v : Any) :
  wf_world w -> wf_world (SetContext self name v w).
Proof.
  intros [Hlen Hptr]. split; [exact Hlen|].
  intros id p Hin. simpl. rewrite length_alter. by apply (Hptr id).
Qed.

End WorldFacts.

Section WorldExamples.
Import Scopes Invariants World.

Lemma wf_world_sample_world : wf_world sample_world.
Proof.
  split; [reflexivity|]. intros id p Hp.
  destruct id as [|id]; [|destruct id; discriminate].
  injection Hp as <-. vm_compute. repeat split; lia.
Qed.

Lemma Append_registers_last_witness :
  let scope7 := {| plugin_name := "scope"; plugin_tag := 7 |} in
  let scope8 := {| plugin_name := "scope"; plugin_tag := 8 |} in
  let len9 := {| function_name := "len"; function_tag := 9 |} in
  Info 0 "scope" (AppendPlugins 0 [scope7; scope8] sample_world) = Some scope8
  /\ Info 0 "if" (AppendPlugins 0 [scope7; scope8] sample_world)
     = Info 0 "if" sample_world
  /\ functions_of (AppendFunctions 0 [len9] sample_world) 0 !! "len"%string
     = Some len9.
Proof.
  destruct (Append_registers_last sample_world 0 0 "scope"
              [{| plugin_name := "scope"; plugin_tag := 7 |};
               {| plugin_name := "scope"; plugin_tag := 8 |}]
              [] wf_world_sample_world (Nat.lt_0_succ 0)) as (Hscope & _).
  destruct (Append_registers_last sample_world 0 0 "if"
              [{| plugin_name := "scope"; plugin_tag := 7 |};
               {| plugin_name := "scope"; plugin_tag := 8 |}]
              [] wf_world_sample_world (Nat.lt_0_succ 0)) as (_ & Hif & _).
  destruct (Append_registers_last sample_world 0 0 "len" []
              [{| function_name := "len"; function_tag := 9 |}]
              wf_world_sample_world (Nat.lt_0_succ 0)) as (_ & _ & Hlen & _).
  split; [exact (Hscope eq_refl _ eq_refl)|].
  split; [exact (Hif (or_intror eq_refl))|exact (Hlen eq_refl _ eq_refl)].
Defined.

Lemma registry_is_shared_witness :
  let flatten := {| plugin_name := "flatten"; plugin_tag := 3 |} in
  let w1 := fst (NewScope sample_growcap 0 sample_world) in
  let n := snd (NewScope sample_growcap 0 sample_world) in
  Info 0 "flatten" sample_world = None
  /\ Info 0 "flatten" (AppendPlugins n [flatten] w1) = Some flatten
  /\ Info n "flatten" (AppendPlugins 0 [flatten] w1) = Some flatten.
Proof.
  split; [reflexivity|].
  apply (registry_is_shared sample_growcap sample_world 0 "flatten"
           [{| plugin_name := "flatten"; plugin_tag := 3 |}]
           wf_world_sample_world (Nat.lt_0_succ 0)).
Defined.

Lemma SetContext_GetContext_witness :
  GetContext 0 "user" (SetContext 0 "user" (VInt 1) sample_world) = VInt 1
  /\ GetContext 0 "other" (SetContext 0 "user" (VInt 1) sample_world)
     = GetContext 0 "other" sample_world.
Proof.
  destruct (SetContext_GetContext sample_world 0 0 "user" "other" (VInt 1)
              wf_world_sample_world (Nat.lt_0_succ 0)) as [Hsame Hother].
  split; [exact (Hsame eq_refl)|]. apply Hother. right. discriminate.
Defined.

Lemma Copy_shares_context_witness :
  let w := SetContext 0 "user" (VInt 1) sample_world in
  let w1 := fst (Copy sample_growcap 0 w) in
  let c := snd (Copy sample_growcap 0 w) in
  GetContext c "user" w1 = VInt 1
  /\ GetContext 0 "user" (SetContext c "user" (VInt 2) w1) = VInt 2
  /\ GetContext c "user" (SetContext 0 "user" (VInt 2) w1) = VInt 2.
Proof.
  pose proof (SetContext_wf_world sample_world 0 "user" (VInt 1)
                wf_world_sample_world) as Hwf.
  exact (Copy_shares_context sample_growcap
           (SetContext 0 "user" (VInt 1) sample_world) 0 "user" (VInt 2)
           Hwf (Nat.lt_0_succ 0)).
Defined.

Lemma NewScope_fresh_context_witness :
  let w := SetContext 0 "user" (VInt 1) sample_world in
  let w1 := fst (NewScope sample_growcap 0 w) in
  let n := snd (NewScope sample_growcap 0 w) in
  GetContext n "user" w1 = Nil
  /\ GetContext n "user" (SetContext 0 "user" (VInt 2) w1) = Nil
  /\ GetContext 0 "user" (SetContext n "user" (VInt 2) w1) = VInt 1.
Proof.
  pose proof (SetContext_wf_world sample_world 0 "user" (VInt 1)
                wf_world_sample_world) as Hwf.
  exact (NewScope_fresh_context sample_growcap
           (SetContext 0 "user" (VInt 1) sample_world) 0 0 "user" "user" (VInt 2)
           Hwf (Nat.lt_0_succ 0) (Nat.lt_0_succ 0)).
Defined.

Lemma ClearContext_detaches_witness :
  let w := SetContext 0 "user" (VInt 1) sample_world in
  let w1 := fst (Copy sample_growcap 0 w) in
  let c := snd (Copy sample_growcap 0 w) in
  GetContext c "user" w1 = VInt 1
  /\ GetContext c "user" (ClearContext c w1) = Nil
  /\ GetContext 0 "user" (ClearContext c w1) = VInt 1
  /\ GetContext 0 "user" (SetContext c "user" (VInt 2) (ClearContext c w1))
     = VInt 1.
Proof.
  pose proof (Copy_wf_world sample_growcap 0 _
                (SetContext_wf_world sample_world 0 "user" (VInt 1)
                   wf_world_sample_world) (Nat.lt_0_succ 0)) as Hwf.
  destruct (ClearContext_detaches
              (fst (Copy sample_growcap 0
                      (SetContext 0 "user" (VInt 1) sample_world)))
              (snd (Copy sample_growcap 0
                      (SetContext 0 "user" (VInt 1) sample_world)))
              0 "user" "user" (VInt 2) Hwf)
    as (Hself & Hother & Hset & _ & _).
  - vm_compute. lia.
  - vm_compute. lia.
  - vm_compute. discriminate.
  - split; [vm_compute; reflexivity|]. split; [exact Hself|]. split.
    + rewrite Hother. vm_compute. reflexivity.
    + rewrite Hset. vm_compute. reflexivity.
Defined.

Lemma factory_registries_are_new_witness :
  let flatten := {| plugin_name := "flatten"; plugin_tag := 3 |} in
  let chain := {| plugin_name := "chain"; plugin_tag := 4 |} in
  let w1 := fst (vfilter_NewScope sample_growcap sample_implements [] []
                   [flatten] sample_world) in
  let r := snd (vfilter_NewScope sample_growcap sample_implements [] []
                  [flatten] sample_world) in
  Info r "scope" w1 = None
  /\ Info 0 "scope" (AppendPlugins r [chain] w1) = Info 0 "scope" sample_world
  /\ Info r "flatten" (AppendPlugins 0 [chain] w1) = Some flatten.
Proof.
  assert (Hret : fst (Scopes.vfilter_NewScope sample_growcap sample_implements
                        [] (state sample_world))
                 = Returned (state_of (fst (Scopes.vfilter_NewScope sample_growcap
                                sample_implements [] (state sample_world)))))
    by (vm_compute; reflexivity).
  destruct (factory_registries_are_new sample_growcap sample_implements [] []
              [{| plugin_name := "flatten"; plugin_tag := 3 |}]
              [{| plugin_name := "chain"; plugin_tag := 4 |}]
              sample_world 0 "scope" _ wf_world_sample_world (Nat.lt_0_succ 0)
              Hret) as (Hown & _ & _ & _ & Hother & _).
  destruct (factory_registries_are_new sample_growcap sample_implements [] []
              [{| plugin_name := "flatten"; plugin_tag := 3 |}]
              [{| plugin_name := "chain"; plugin_tag := 4 |}]
              sample_world 0 "flatten" _ wf_world_sample_world (Nat.lt_0_succ 0)
              Hret) as (_ & _ & _ & _ & _ & Hkept).
  split; [exact Hown|]. split; [exact Hother|exact Hkept].
Defined.

End WorldExamples.
